(** * Saga helpers of the Hathor mobile wallet: a shallow embedding

    This development embeds [src/sagas/helpers.js] and states the properties
    of its helpers as theorems.

    - Part I gives JavaScript values, the operators the helpers apply to them
      ([===], [== null], [||], [??], property access) and lodash's [get].
    - Part II embeds the helpers: the pure ones as functions, the generator
      based ones as terms of a small free monad of saga effects, the promise
      based ones as sequential code over explicit traces.
    - Part III names what the properties speak of, and gives the sample
      data the helpers are run on.
    - Part IV holds the properties. *)

From stdpp Require Import gmap strings list pretty.

Set Warnings "-register-all".
Set Default Proof Using "Type".


(* ===================================================================== *)
(** * Part I. JavaScript values                                           *)
(* ===================================================================== *)

(** Object identity. [===] on two objects compares identities, never
    contents. *)
Definition ref := nat.

(** The values the helpers handle. Numbers only ever meet [===], truthiness
    and property keys, so an integer payload plus [NaN] is all that is kept of
    IEEE doubles. Arrays are objects whose property names are the decimal
    indices (and ["length"]), as in the language itself. Only own properties
    are modelled: there is no prototype chain and there are no function
    values. *)
Inductive value : Type :=
| VUndefined
| VNull
| VBool (b : bool)
| VNum (z : Z)
| VNaN
| VStr (s : string)
| VObj (r : ref) (props : gmap string value).

(** A plain object seen as its own-property table. *)
Abbreviation object := (gmap string value).

(** [x == null]: true for [null] and [undefined] only. *)
Definition nullish (v : value) : bool :=
  match v with
  | VUndefined | VNull => true
  | _ => false
  end.

(** ToBoolean. *)
Definition truthy (v : value) : bool :=
  match v with
  | VUndefined | VNull | VNaN => false
  | VBool b => b
  | VNum z => negb (z =? 0)%Z
  | VStr s => negb (String.eqb s "")
  | VObj _ _ => true
  end.

(** [a === b]. *)
Definition strict_eq (a b : value) : bool :=
  match a, b with
  | VUndefined, VUndefined => true
  | VNull, VNull => true
  | VBool x, VBool y => Bool.eqb x y
  | VNum x, VNum y => (x =? y)%Z
  | VStr x, VStr y => String.eqb x y
  | VObj r1 _, VObj r2 _ => Nat.eqb r1 r2
  | _, _ => false
  end.

(** [a || b] and [a ?? b]. *)
Definition js_or (a b : value) : value := if truthy a then a else b.
Definition nullish_coalesce (a b : value) : value := if nullish a then b else a.

(** The index a property name denotes on a string of the given length:
    the canonical decimal numerals below the length. *)
Definition string_index (s k : string) : option nat :=
  fst <$> list_find (λ i : nat, k = pretty i) (seq 0 (String.length s)).

(** [key in Object(o)] for a non-nullish [o], own properties only. *)
Definition has_property (o : value) (k : string) : bool :=
  match o with
  | VObj _ props => bool_decide (is_Some (props !! k))
  | VStr s => bool_decide (k = "length") || bool_decide (is_Some (string_index s k))
  | _ => false
  end.

(** [o.k] on the property table of an object. *)
Definition getfield (o : object) (k : string) : value := default VUndefined (o !! k).

(** [o[k]] for a non-nullish [o]. *)
Definition getprop (o : value) (k : string) : value :=
  match o with
  | VObj _ props => getfield props k
  | VStr s =>
      if bool_decide (k = "length") then VNum (Z.of_nat (String.length s))
      else match string_index s k ≫= λ i, String.get i s with
           | Some c => VStr (String c "")
           | None => VUndefined
           end
  | _ => VUndefined
  end.

(** ** lodash [get]

    lodash is a dependency, not part of the sources. Its [get] is embedded
    from the library's code; the three regular-expression based pieces
    ([reIsPlainProp], [reIsDeepProp] and the memoised [stringToPath]) are kept
    as a parameter, so that nothing below depends on one path grammar. *)
Record PathSyntax : Type := {
  reIsPlainProp : string → bool;
  reIsDeepProp : string → bool;
  stringToPath : string → list string;
}.

(** The grammar restricted to bracket-free paths: a name made of word
    characters is plain, a name with a dot is deep and splits at its dots. *)
Definition is_word_char (c : Ascii.ascii) : bool :=
  let n := Ascii.nat_of_ascii c in
  (((48 <=? n) && (n <=? 57)) || ((65 <=? n) && (n <=? 90))
   || ((97 <=? n) && (n <=? 122)) || (n =? 95))%nat.

Fixpoint string_forall (p : Ascii.ascii → bool) (s : string) : bool :=
  match s with
  | EmptyString => true
  | String c s' => p c && string_forall p s'
  end.

(** The character ['.']. *)
Definition dot : Ascii.ascii := Ascii.ascii_of_nat 46.

Fixpoint split_dots (s : string) : list string :=
  match s with
  | EmptyString => [""]
  | String c s' =>
      if Ascii.eqb c dot then "" :: split_dots s'
      else match split_dots s' with
           | [] => [String c ""]
           | seg :: segs => String c seg :: segs
           end
  end.

Definition dot_paths : PathSyntax := {|
  reIsPlainProp := string_forall is_word_char;
  reIsDeepProp := λ s, negb (string_forall (λ c, negb (Ascii.eqb c dot)) s);
  stringToPath := split_dots;
|}.

Section lodash.
Context (L : PathSyntax).

(** [isKey(value, object)] for a string [value]. *)
Definition isKey (key : string) (obj : value) : bool :=
  reIsPlainProp L key || negb (reIsDeepProp L key)
  || (negb (nullish obj) && has_property obj key).

(** [castPath(value, object)] for a string [value]. *)
Definition castPath (key : string) (obj : value) : list string :=
  if isKey key obj then [key] else stringToPath L key.

(** The loop of [baseGet]: it stops at the first nullish intermediate
    value, and the caller then sees an index short of the length. *)
Fixpoint baseGet_loop (obj : value) (path : list string) : value :=
  match path with
  | [] => obj
  | k :: rest =>
      if nullish obj then VUndefined else baseGet_loop (getprop obj k) rest
  end.

(** [baseGet]: [(index && index == length) ? object : undefined]. *)
Definition baseGet (obj : value) (key : string) : value :=
  match castPath key obj with
  | [] => VUndefined
  | path => baseGet_loop obj path
  end.

(** [get(object, path, defaultValue)]. *)
Definition get_default (obj : value) (key : string) (defaultValue : value) : value :=
  let result := if nullish obj then VUndefined else baseGet obj key in
  if strict_eq result VUndefined then defaultValue else result.

(** [get(object, path)]: the default is [undefined]. *)
Definition get (obj : value) (key : string) : value :=
  get_default obj key VUndefined.
End lodash.

(* ===================================================================== *)
(** * Part II. The helpers                                                *)
(* ===================================================================== *)

(** ** [specificTypeAndPayload] *)

(** The first argument, [String[] | String]. *)
Inductive action_types : Type :=
| OneType (t : string)
| ManyTypes (ts : list string).

(** [Array.isArray] followed by the one-element wrap. *)
Definition normalize_types (_types : action_types) : list string :=
  match _types with
  | OneType t => [t]
  | ManyTypes ts => ts
  end.

(** [arr.indexOf(x) === -1] on an array of strings: [indexOf] compares with
    [===]. *)
Definition not_in_types (actionTypes : list string) (x : value) : bool :=
  negb (existsb (λ t, strict_eq (VStr t) x) actionTypes).

(** [Object.keys(v)]: a [TypeError] ([None]) on [null] and [undefined], the
    own property names of an object, the indices of a string, nothing for the
    other primitives. *)
Definition Object_keys (v : value) : option (list string) :=
  match v with
  | VUndefined | VNull => None
  | VObj _ props => Some (map_to_list props).*1
  | VStr s => Some (pretty <$> seq 0 (String.length s))
  | _ => Some []
  end.

Section matcher.
Context (L : PathSyntax).

(** The predicate built by [specificTypeAndPayload(_types, payload)],
    applied to [action]. [None] is a [TypeError]: reading [action.type] on a
    nullish action, or listing the keys of a nullish payload. The loop over
    the keys returns [false] at the first mismatch. *)
Definition specificTypeAndPayload (_types : action_types) (payload : value)
    (action : value) : option bool :=
  let actionTypes := normalize_types _types in
  if nullish action then None
  else if not_in_types actionTypes (getprop action "type") then Some false
  else
    keys ← Object_keys payload;
    Some (forallb
            (λ key,
               let actionKey := get L action key in
               let payloadKey := get L payload key in
               strict_eq actionKey payloadKey)
            keys).
End matcher.

(** ** What the file imports

    The constants come from [../constants], [../actions], the wallet library
    and [ttag]; none of them is part of the sources at hand, so the helpers
    are embedded over an arbitrary choice of them. *)
Record Imports : Type := {
  (** [FEATURE_TOGGLE_DEFAULTS] *)
  FEATURE_TOGGLE_DEFAULTS : object;
  (** [INITIAL_TOKENS] *)
  INITIAL_TOKENS : list object;
  (** [PUSH_NOTIFICATION_FEATURE_TOGGLE] *)
  PUSH_NOTIFICATION_FEATURE_TOGGLE : string;
  (** [WALLET_SERVICE_FEATURE_TOGGLE] *)
  WALLET_SERVICE_FEATURE_TOGGLE : string;
  (** [networkSettingsKeyMap.networkSettings] *)
  networkSettingsKey : string;
  (** [types.FEATURE_TOGGLE_INITIALIZED] *)
  FEATURE_TOGGLE_INITIALIZED : string;
  (** [hathorLib.constants.HATHOR_TOKEN_CONFIG.uid] *)
  htrUid : string;
  (** the translation tag [t] of ttag, applied to a message *)
  ttag_t : string → string;
  (** the root reducer of the store the sagas run against *)
  reducer : object → value → object;
}.

(** ** Saga effects

    A generator of redux-saga is a tree of the effects it yields: each node
    is one [yield], its continuation is the rest of the body given what the
    middleware sends back, [Ret] is the [return] and [Throw] a [throw] that
    nobody inside caught. *)

(** What [take] accepts: one action type, an array of them, or a predicate
    such as the ones [specificTypeAndPayload] builds. *)
Inductive pattern : Type :=
| PatType (t : string)
| PatTypes (ts : list string)
| PatPred (p : value → bool).

Inductive Saga (R : Type) : Type :=
| Ret (r : R)
| Throw (e : value)
| Select (selector : object → value) (k : value → Saga R)
| Put (action : value) (k : Saga R)
| Take (p : pattern) (k : value → Saga R)
| Race (effects : list (string * pattern)) (k : object → Saga R)
| ConsoleError (args : list value) (k : Saga R).

Arguments Ret {R} r.
Arguments Throw {R} e.
Arguments Select {R} selector k.
Arguments Put {R} action k.
Arguments Take {R} p k.
Arguments Race {R} effects k.
Arguments ConsoleError {R} args k.

(** Sequencing: [yield call(m)] followed by the rest of the body. A fault of
    [m] skips the rest. *)
Fixpoint call {A R : Type} (m : Saga A) (rest : A → Saga R) : Saga R :=
  match m with
  | Ret a => rest a
  | Throw e => Throw e
  | Select sel k => Select sel (λ v, call (k v) rest)
  | Put a k => Put a (call k rest)
  | Take p k => Take p (λ v, call (k v) rest)
  | Race es k => Race es (λ o, call (k o) rest)
  | ConsoleError args k => ConsoleError args (call k rest)
  end.

(** [try { m } catch (e) { handler e }]. *)
Fixpoint try_catch {R : Type} (m : Saga R) (handler : value → Saga R) : Saga R :=
  match m with
  | Ret r => Ret r
  | Throw e => handler e
  | Select sel k => Select sel (λ v, try_catch (k v) handler)
  | Put a k => Put a (try_catch k handler)
  | Take p k => Take p (λ v, try_catch (k v) handler)
  | Race es k => Race es (λ o, try_catch (k o) handler)
  | ConsoleError args k => ConsoleError args (try_catch k handler)
  end.

Declare Scope saga_scope.
Delimit Scope saga_scope with saga.
Notation "x ← 'yield' m ; rest" := (call m (λ x, rest))
  (at level 20, m at level 100, rest at level 200, only parsing) : saga_scope.

(** The [TypeError] raised by a property read on [null] or [undefined]. *)
Definition TypeError : value := VStr "TypeError".

(** ToString, as a template literal applies it. *)
Definition ToString (v : value) : string :=
  match v with
  | VUndefined => "undefined"
  | VNull => "null"
  | VBool true => "true"
  | VBool false => "false"
  | VNum z => pretty z
  | VNaN => "NaN"
  | VStr s => s
  | VObj _ _ => "[object Object]"
  end.

Section sagas.
Context (L : PathSyntax) (I : Imports).

(** ** [waitForFeatureToggleInitialization] *)
Definition waitForFeatureToggleInitialization : Saga value :=
  Select (λ state, getfield state "featureTogglesInitialized")
    (λ featureTogglesInitialized,
       if negb (truthy featureTogglesInitialized) then
         Take (PatType (FEATURE_TOGGLE_INITIALIZED I)) (λ _, Ret VUndefined)
       else Ret VUndefined).

(** ** [checkForFeatureFlag] *)
Definition checkForFeatureFlag (flag : string) : Saga value :=
  (_ ← yield waitForFeatureToggleInitialization;
   Select (λ state, getfield state "featureToggles")
     (λ featureToggles,
        Ret (get_default L featureToggles flag
               (js_or (getfield (FEATURE_TOGGLE_DEFAULTS I) flag) (VBool false)))))%saga.

(** ** [dispatchAndWait]

    The second key of the race is spelled [falure] in the source. *)
Definition dispatchAndWait (action : value) (successAction failureAction : pattern)
    : Saga object :=
  Put action
    (Race [("success", successAction); ("falure", failureAction)]
       (λ outcome, Ret outcome)).

(** ** [errorHandler]

    The wrapper returned for [saga] and [failureAction], applied to the
    action it is started with. The template literal of the log line reads
    [action.type], which is a [TypeError] on a nullish action. *)
Definition errorHandler (saga : value → Saga value) (failureAction : value)
    (action : value) : Saga value :=
  try_catch
    (_ ← yield saga action; Ret VUndefined)%saga
    (λ e,
       if nullish action then Throw TypeError
       else
         ConsoleError
           [VStr ("Captured error in " +:+ ToString (getprop action "type") +:+ " saga"); e]
           (Put failureAction (Ret VUndefined))).
End sagas.

(** ** The middleware

    redux-saga and the redux store are dependencies and are not part of the
    sources. What follows is the event stream collaborator of the spec
    (sections 5 and 6) for one routine: cooperative and single threaded,
    every emitted event goes first through the reducer and then, in emission
    order, to the routine if it is suspended; a routine suspended on a
    pattern resumes on the first later event that matches it, never on an
    earlier one; a race registers one listener per branch, in key order,
    resolves to the first branch whose listener matches and drops all its
    listeners when it does. *)

(** Modelled from the spec: the predicate a [take] pattern stands for. A
    string pattern compares with [action.type]. *)
Definition matches (p : pattern) (action : value) : bool :=
  match p with
  | PatType t => strict_eq (getprop action "type") (VStr t)
  | PatTypes ts => existsb (λ t, strict_eq (getprop action "type") (VStr t)) ts
  | PatPred f => f action
  end.

Arguments matches : simpl never.

(** Where a routine stands: returned, failed with a fault that nothing
    caught, or suspended with its listeners registered. *)
Inductive status (R : Type) : Type :=
| Done (r : R)
| Failed (e : value)
| OnTake (p : pattern) (k : value → Saga R)
| OnRace (effects : list (string * pattern)) (k : object → Saga R).

Arguments Done {R} r.
Arguments Failed {R} e.
Arguments OnTake {R} p k.
Arguments OnRace {R} effects k.

(** A routine under the middleware: the store, the actions it has put
    (oldest first), its console output, the number of times it was resumed
    from a suspension, and where it stands. *)
Record task (R : Type) : Type := Task {
  store : object;
  emitted : list value;
  console : list (list value);
  resumed : nat;
  standing : status R;
}.

Arguments Task {R} store emitted console resumed standing.
Arguments store {R} t.
Arguments emitted {R} t.
Arguments console {R} t.
Arguments resumed {R} t.
Arguments standing {R} t.

(** The listeners a routine has registered on the event stream. *)
Definition listeners {R : Type} (t : task R) : list pattern :=
  match standing t with
  | OnTake p _ => [p]
  | OnRace effects _ => effects.*2
  | _ => []
  end.

Definition suspended {R : Type} (t : task R) : bool :=
  match standing t with
  | OnTake _ _ | OnRace _ _ => true
  | _ => false
  end.

(** Modelled from the spec: the branch of a race that an event resolves is
    the first, in key order, whose pattern matches. *)
Definition winner (effects : list (string * pattern)) (action : value)
    : option (string * pattern) :=
  List.find (λ e, matches e.2 action) effects.

Section middleware.
Context (I : Imports).

(** Modelled from the spec: the middleware runs a routine up to its next
    suspension. [select] reads the store, [put] sends the action through the
    reducer and records it, [take] and [race] register their listeners and
    suspend. *)
Fixpoint advance {R : Type} (m : Saga R) (s : object) (out : list value)
    (log : list (list value)) (n : nat) : task R :=
  match m with
  | Ret r => Task s out log n (Done r)
  | Throw e => Task s out log n (Failed e)
  | Select sel k => advance (k (sel s)) s out log n
  | Put a k => advance k (reducer I s a) (out ++ [a]) log n
  | Take p k => Task s out log n (OnTake p k)
  | Race effects k => Task s out log n (OnRace effects k)
  | ConsoleError args k => advance k s out (log ++ [args]) n
  end.

(** Starts a routine on a store. *)
Definition start {R : Type} (m : Saga R) (s : object) : task R :=
  advance m s [] [] 0.

(** Modelled from the spec: one event of the stream reaches the routine,
    after the reducer. A suspended routine whose listener matches is resumed
    with the event and its listeners are gone; a race resumes with an object
    whose key is the winning branch. A routine that is not suspended has no
    listener. *)
Definition deliver {R : Type} (t : task R) (action : value) : task R :=
  let s := reducer I (store t) action in
  let idle := Task s (emitted t) (console t) (resumed t) (standing t) in
  match standing t with
  | OnTake p k =>
      if matches p action
      then advance (k action) s (emitted t) (console t) (S (resumed t))
      else idle
  | OnRace effects k =>
      match winner effects action with
      | Some (key, _) =>
          advance (k {[ key := action ]}) s (emitted t) (console t) (S (resumed t))
      | None => idle
      end
  | _ => idle
  end.

(** Modelled from the spec: the events of the stream reach the routine in
    emission order. *)
Definition run {R : Type} (t : task R) (events : list value) : task R :=
  foldl deliver t events.
End middleware.

(** ** [showPinScreenForResult]

    The body of the promise executor, as the sequence of calls it makes on
    its collaborators. *)

(** Modelled from the spec: the action creator [setIsShowingPinScreen] of
    [../actions] is not part of the sources; dispatching what it returns is
    how the shared "modal visible" flag is written. *)
Inductive pin_screen_action : Type :=
| setIsShowingPinScreen (visible : bool).

(** The [params] object handed to the navigation service. *)
Record pin_params (op : Type) : Type := PinParams {
  cb : value → list op;
  canCancel : bool;
  screenText : string;
  biometryText : string;
}.

Arguments PinParams {op} cb canCancel screenText biometryText.
Arguments cb {op} p.
Arguments canCancel {op} p.
Arguments screenText {op} p.
Arguments biometryText {op} p.

(** The calls the bridge makes. *)
Inductive op : Type :=
| Navigate (screen : string) (params : pin_params op)
| Dispatch (action : pin_screen_action)
| Resolve (pin : value).

Section pin_screen.
Context (I : Imports).

(** [showPinScreenForResult(dispatch)]: the executor builds [params], calls
    [NavigationService.navigate], then dispatches the flag. [resolve] is
    the resolver of the new promise. *)
Definition showPinScreenForResult (dispatch : pin_screen_action → list op) : list op :=
  let resolve := λ _pin, [Resolve _pin] in
  let params := {|
    cb := λ _pin, dispatch (setIsShowingPinScreen false) ++ resolve _pin;
    canCancel := false;
    screenText := ttag_t I "Enter your 6-digit pin to authorize operation";
    biometryText := ttag_t I "Authorize operation";
  |} in
  [Navigate "PinScreen" params] ++ dispatch (setIsShowingPinScreen true).
End pin_screen.

(** The store's [dispatch]. *)
Definition redux_dispatch (action : pin_screen_action) : list op := [Dispatch action].

(** The completion callbacks of the modals presented in a trace. *)
Definition callbacks (trace : list op) : list (value → list op) :=
  omap (λ o, match o with Navigate _ params => Some (cb params) | _ => None end) trace.

(** Modelled from the spec: the modal presentation collaborator is fire and
    forget and completes later through [onComplete]. A session is the
    executor's calls followed by the screen calling back, once per secret the
    user enters, the first callback it was given. *)
Definition session (executor : list op) (pins : list value) : list op :=
  executor ++
  match callbacks executor with
  | [] => []
  | onComplete :: _ => pins ≫= onComplete
  end.

(** The flag after a trace: the last value dispatched, else the initial one. *)
Definition modal_visible (initial : bool) (trace : list op) : bool :=
  foldl (λ flag o, match o with Dispatch (setIsShowingPinScreen b) => b | _ => flag end)
    initial trace.

(** A promise settles once: its value is the argument of the first
    [resolve]. *)
Definition promise_value (trace : list op) : option value :=
  head (omap (λ o, match o with Resolve pin => Some pin | _ => None end) trace).

(** Positions in a trace. *)
Definition is_navigate (o : op) : bool :=
  match o with Navigate _ _ => true | _ => false end.

Definition sets_flag (b : bool) (o : op) : bool :=
  match o with Dispatch (setIsShowingPinScreen b') => Bool.eqb b b' | _ => false end.

Definition is_resolve (o : op) : bool :=
  match o with Resolve _ => true | _ => false end.

Fixpoint position (p : op → bool) (trace : list op) : option nat :=
  match trace with
  | [] => None
  | o :: rest => if p o then Some 0 else S <$> position p rest
  end.

Definition occurrences (p : op → bool) (trace : list op) : nat :=
  length (filter (λ o, p o = true) trace).

(** ** [getRegisteredTokens] and [isTokenRegistered]

    [wallet.storage.getRegisteredTokens()] is an asynchronous generator; the
    function awaits one [next()] at a time until [done]. The generator is
    given by the records it still has to yield, which makes the [while] loop
    a recursion on them. *)

(** The object literal [{ uid: token.uid, symbol: token.symbol, name:
    token.name }]. *)
Definition token_record (token : object) : object :=
  <[ "uid" := getfield token "uid" ]>
    (<[ "symbol" := getfield token "symbol" ]>
       (<[ "name" := getfield token "name" ]> ∅)).

Section tokens.
Context (I : Imports).

(** The loop: [tokens] is the array built so far. *)
Fixpoint drain (excludeHTR : bool) (iterator : list object) (tokens : list object)
    : list object :=
  match iterator with
  | [] => tokens
  | token :: iterator' =>
      let tokens' :=
        if negb excludeHTR
           || negb (strict_eq (getfield token "uid") (VStr (htrUid I)))
        then tokens ++ [token_record token]
        else tokens in
      drain excludeHTR iterator' tokens'
  end.

Definition getRegisteredTokens (registered : list object) (excludeHTR : bool)
    : list object :=
  let tokens := drain excludeHTR registered [] in
  if negb excludeHTR then INITIAL_TOKENS I ++ tokens else tokens.

(** [excludeHTR] defaults to [false]. *)
Definition isTokenRegistered (registered : list object) (tokenUid : value) : bool :=
  let tokens := getRegisteredTokens registered false in
  existsb (λ token, strict_eq (getfield token "uid") tokenUid) tokens.
End tokens.

(** ** Network settings *)

(** Modelled from the spec: [STORE] of [../store] is not part of the sources.
    It is the persisted storage collaborator, [get(key) -> value | null]:
    a table of stored values, [null] for a key that was never stored. *)
Definition STORE_getItem (STORE : object) (key : string) : value :=
  default VNull (STORE !! key).

Section network.
Context (I : Imports).

(** [customNetworkSettings.walletServiceUrl == null]. *)
Definition isWalletServiceUnavailable (customNetworkSettings : object) : bool :=
  nullish (getfield customNetworkSettings "walletServiceUrl").

(** The spreads copy the own properties; the computed keys are written in
    source order, the wallet service first. *)
Definition disableFeaturesIfNeeded (customNetworkSettings currentFeatureToggles : object)
    : object :=
  let featureToggles := currentFeatureToggles in
  let featureToggles :=
    if isWalletServiceUnavailable customNetworkSettings then
      <[ PUSH_NOTIFICATION_FEATURE_TOGGLE I := VBool false ]>
        (<[ WALLET_SERVICE_FEATURE_TOGGLE I := VBool false ]> featureToggles)
    else featureToggles in
  featureToggles.

(** [STORE.getItem(networkSettingsKeyMap.networkSettings) ??
    state.networkSettings]. *)
Definition getNetworkSettings (STORE : object) (state : object) : value :=
  nullish_coalesce (STORE_getItem STORE (networkSettingsKey I))
    (getfield state "networkSettings").
End network.

(** ** [isUnlockScreen]

    [types.SET_LOCK_SCREEN] comes from [../actions]; it is an argument here.
    Reading a property of a nullish action is a [TypeError] ([None]). *)
Definition isUnlockScreen (SET_LOCK_SCREEN : string) (action : value) : option bool :=
  if nullish action then None
  else
    Some (strict_eq (getprop action "type") (VStr SET_LOCK_SCREEN)
          && strict_eq (getprop action "payload") (VBool false)).

(** ** Promises

    What an [async] function comes to: its promise stays pending, is
    fulfilled with a value, or is rejected with what was thrown. *)
Inductive async (A : Type) : Type :=
| Pending
| Fulfilled (v : A)
| Rejected (e : value).

Arguments Pending {A}.
Arguments Fulfilled {A} v.
Arguments Rejected {A} e.

(** [const x = await p; k x]: a rejection is thrown where the [await]
    stands. *)
Definition await {A B : Type} (p : async A) (k : A → async B) : async B :=
  match p with
  | Pending => Pending
  | Fulfilled v => k v
  | Rejected e => Rejected e
  end.

(** [try { body } catch { handler }], the [catch] binding nothing. *)
Definition try_catch_all {A : Type} (body handler : async A) : async A :=
  match body with
  | Rejected _ => handler
  | _ => body
  end.

(** [o.k], which throws on a nullish [o]. *)
Definition read (o : value) (k : string) : async value :=
  if nullish o then Rejected TypeError else Fulfilled (getprop o k).

(** [new Error(message)]. The helpers never compare errors, so the identity
    is a fixed one. *)
Definition new_Error (message : string) : value :=
  VObj 0 (<[ "message" := VStr message ]> ∅).

(** What a callback-taking request does, in order: it calls the callback it
    was given with some data, or the promise it returned rejects. *)
Inductive api_step : Type :=
| CallsBack (data : value)
| Fails (error : value).

(** [new Promise((resolve, reject) => { request(resolve).catch((error) =>
    { reject(error); }); })]: a promise settles once, on the first of the
    two that happens. *)
Definition promise_of (request : list api_step) : async value :=
  match request with
  | [] => Pending
  | CallsBack data :: _ => Fulfilled data
  | Fails error :: _ => Rejected error
  end.

(** ** [getFullnodeNetwork]

    [hathorLib.versionApi.getVersion] is given by what it does with the
    callback. *)
Definition getFullnodeNetwork (getVersion : list api_step) : async value :=
  try_catch_all
    (await (promise_of getVersion) (λ response, read response "network"))
    (Rejected (new_Error "Error getting fullnode version data.")).

(** What the transport answers to a request: a reply with its HTTP status
    and the response object built from it, a failure (no connection, the
    timeout), or nothing ever. *)
Inductive http_reply : Type :=
| Reply (status : Z) (response : value)
| NoReply (error : value)
| Silent.

(** [instance.get(url, { validateStatus })] of axios, a dependency: the
    promise is fulfilled with the response when the status is falsy or
    [validateStatus] accepts it, and rejected otherwise. *)
Definition axios_get (reply : http_reply) (validateStatus : Z → bool) : async value :=
  match reply with
  | Silent => Pending
  | NoReply error => Rejected error
  | Reply status response =>
      if (status =? 0)%Z || validateStatus status then Fulfilled response
      else Rejected (new_Error ("Request failed with status code " +:+ pretty status))
  end.

(** ** [getWalletServiceNetwork]

    [config.getWalletServiceBaseUrl()] returns the URL or throws; the
    transport answers for the instance created on that URL with
    [WALLET_SERVICE_REQUEST_TIMEOUT]. *)
Definition getWalletServiceNetwork (getWalletServiceBaseUrl : async value)
    (transport : value → http_reply) : async value :=
  try_catch_all
    (await getWalletServiceBaseUrl (λ baseUrl,
     await (axios_get (transport baseUrl) (λ status, (status =? 200)%Z)) (λ response,
     await (read response "data") (λ data,
     await (read data "data") (λ data', read data' "network")))))
    (Rejected (new_Error "Error getting wallet-service version data.")).

(** ** [UnregisterToken.unregisterConfirmed]

    The handler of the screen that unregisters the selected token, as the
    sequence of calls it makes: on the wallet library, on the store, on the
    navigation and on its own state. [hathorLib.tokens.unregisterToken] is
    given by the promise it returns for a uid. *)
Inductive screen_op : Type :=
| UnregisterToken (uid : value)
| DispatchSetTokens (tokens : value)
| NavigationNavigate (screen : string)
| SetStateErrorMessage (errorMessage : value)
| Unhandled (e : value).

Section unregister.
Context (I : Imports).

(** [promise.then(onFulfilled, onRejected)]: nothing runs while the promise
    is pending. Reading [e.message] on a nullish [e] throws inside the
    rejection handler, where nothing catches it. *)
Definition unregisterConfirmed (selectedToken : object)
    (unregisterToken : value → async value) : list screen_op :=
  if strict_eq (getfield selectedToken "uid") (VStr (htrUid I)) then []
  else
    UnregisterToken (getfield selectedToken "uid") ::
    match unregisterToken (getfield selectedToken "uid") with
    | Pending => []
    | Fulfilled tokens => [DispatchSetTokens tokens; NavigationNavigate "Dashboard"]
    | Rejected e =>
        match read e "message" with
        | Fulfilled message => [SetStateErrorMessage message]
        | Rejected thrown => [Unhandled thrown]
        | Pending => []
        end
    end.
End unregister.

(* ===================================================================== *)
(** * Part III. The vocabulary of the properties                          *)
(* ===================================================================== *)

(** ** Paths and fields *)

(** The own property [k] of [v], if [v] has one. *)
Definition own (v : value) (k : string) : option value :=
  if nullish v then None
  else if has_property v k then Some (getprop v k) else None.

(** The value a path leads to, one own property after the other; [None] when
    some step finds nothing. *)
Fixpoint resolve (v : value) (path : list string) : option value :=
  match path with
  | [] => Some v
  | k :: rest => own v k ≫= λ w, resolve w rest
  end.

(** [===] on a primitive other than [NaN] is equality of values. *)
Definition primitive (v : value) : Prop :=
  match v with
  | VObj _ _ | VNaN => False
  | _ => True
  end.

(** The kind of an event is among the accepted ones. *)
Definition kind_accepted (_types : action_types) (A : object) : Prop :=
  ∃ t, t ∈ normalize_types _types ∧ A !! "type" = Some (VStr t).

(** Every field of the map resolves on the event to its expected value. *)
Definition fields_match (L : PathSyntax) (F : object) (event : value) : Prop :=
  ∀ key expected, F !! key = Some expected →
    strict_eq (get L event key) expected = true.

(** An event property that a field map does not name: it is not the kind,
    and no key of the map is that name or a path starting at it. *)
Definition unrelated (L : PathSyntax) (F : object) (k : string) : Prop :=
  k ≠ "type" ∧
  ∀ key, is_Some (F !! key) → k ≠ key ∧ head (stringToPath L key) ≠ Some k.

(** ** Feature toggles *)

(** A toggle set, and the static defaults: names mapped to booleans. *)
Definition boolean_valued (o : object) : Prop :=
  ∀ k v, o !! k = Some v → ∃ b, v = VBool b.

(** A flag name stands for itself: when its path has a single segment, the
    segment is the name. Names without brackets all do. *)
Definition names_itself (L : PathSyntax) (flag : string) : Prop :=
  ∀ seg, stringToPath L flag = [seg] → seg = flag.

(** The value of a flag: the one of the toggle set if the set has the flag,
    else the static default of the flag, else [false]. *)
Definition flag_value (I : Imports) (toggles : object) (flag : string) : value :=
  match toggles !! flag with
  | Some v => v
  | None =>
      match FEATURE_TOGGLE_DEFAULTS I !! flag with
      | Some d => d
      | None => VBool false
      end
  end.

(** ** Routines under the middleware *)

(** The store after a run of events: every event went through the
    reducer. *)
Definition reduce (I : Imports) (s : object) (events : list value) : object :=
  foldl (reducer I) s events.

(** An event that neither outcome pattern matches. *)
Definition unsettling (successAction failureAction : pattern) (e : value) : Prop :=
  matches successAction e = false ∧ matches failureAction e = false.

(** The line the wrapper logs for a fault [e]. *)
Definition captured (action e : value) : list value :=
  [VStr ("Captured error in " +:+ ToString (getprop action "type") +:+ " saga"); e].

(** The [catch] block of the wrapper, on an action that is not nullish. *)
Definition compensate (failureAction action e : value) : Saga value :=
  ConsoleError (captured action e) (Put failureAction (Ret VUndefined)).

(** The body of the wrapper around what is left of the routine. *)
Definition supervise (failureAction action : value) (m : Saga value) : Saga value :=
  try_catch (call m (λ _, Ret VUndefined)) (compensate failureAction action).

(** The wrapper's task next to the task of the bare routine, on the same
    store and events: suspended on the same listeners with the same past,
    or returned when the routine returned, or returned with the compensating
    event as its last emission when the routine failed. *)
Definition supervises (failureAction action : value) (t' t : task value) : Prop :=
  match standing t with
  | Done _ =>
      standing t' = Done VUndefined ∧ store t' = store t
      ∧ emitted t' = emitted t ∧ console t' = console t ∧ resumed t' = resumed t
  | Failed e =>
      standing t' = Done VUndefined
      ∧ emitted t' = emitted t ++ [failureAction]
      ∧ console t' = console t ++ [captured action e] ∧ resumed t' = resumed t
  | OnTake p k =>
      t' = Task (store t) (emitted t) (console t) (resumed t)
             (OnTake p (λ v, supervise failureAction action (k v)))
  | OnRace effects k =>
      t' = Task (store t) (emitted t) (console t) (resumed t)
             (OnRace effects (λ o, supervise failureAction action (k o)))
  end.

(** ** The pin screen *)

(** What each presentation of a trace asked for: the screen, the
    cancel-allowed flag and the two prompt texts. *)
Definition presented (trace : list op) : list (string * bool * string * string) :=
  omap (λ o, match o with
             | Navigate screen params =>
                 Some (screen, canCancel params, screenText params, biometryText params)
             | _ => None
             end) trace.

(** The flag is raised strictly before the modal is presented. *)
Definition raised_before_presenting (trace : list op) : Prop :=
  ∃ i j, position (sets_flag true) trace = Some i
         ∧ position is_navigate trace = Some j ∧ i < j.

(** ** Tokens *)

(** A record is native when its [uid] is [===] to the native uid. *)
Definition is_native (I : Imports) (record : object) : bool :=
  strict_eq (getfield record "uid") (VStr (htrUid I)).

(** A token record in the sense of the data model: exactly a [uid], a
    [symbol] and a [name]. *)
Definition TokenRecord (fields : value * value * value) : object :=
  let '(uid, symbol, name) := fields in
  <[ "uid" := uid ]> (<[ "symbol" := symbol ]> (<[ "name" := name ]> ∅)).

(** ** Sample data *)

(** A concrete choice of the imports, used to run the helpers on examples:
    the reducer keeps the last toggle set an initialisation event carries. *)
Definition sample_reducer (state : object) (action : value) : object :=
  if strict_eq (getprop action "type") (VStr "FEATURE_TOGGLE_INITIALIZED") then
    <[ "featureTogglesInitialized" := VBool true ]>
      (<[ "featureToggles" := getprop action "payload" ]> state)
  else state.

Definition sample_imports : Imports := {|
  FEATURE_TOGGLE_DEFAULTS :=
    <[ "wallet-service-mobile.rollout" := VBool false ]>
      (<[ "nano-contract.rollout" := VBool true ]> ∅);
  INITIAL_TOKENS := [ TokenRecord (VStr "00", VStr "HTR", VStr "Hathor") ];
  PUSH_NOTIFICATION_FEATURE_TOGGLE := "push-notification.rollout";
  WALLET_SERVICE_FEATURE_TOGGLE := "wallet-service-mobile.rollout";
  networkSettingsKey := "networkSettings:networkSettings";
  FEATURE_TOGGLE_INITIALIZED := "FEATURE_TOGGLE_INITIALIZED";
  htrUid := "00";
  ttag_t := λ msg, msg;
  reducer := sample_reducer;
|}.

(** An event that has a kind and nothing else. *)
Definition kind_event (r : ref) (kind : string) : value :=
  VObj r (<[ "type" := VStr kind ]> ∅).

(** An event of kind [SEND_TX_SUCCESS] about token [00], and a field map
    asking for that token by a dotted path. *)
Definition sample_event : object :=
  <[ "type" := VStr "SEND_TX_SUCCESS" ]>
    (<[ "payload" := VObj 2 (<[ "uid" := VStr "00" ]> ∅) ]> ∅).

Definition sample_fields : object := <[ "payload.uid" := VStr "00" ]> ∅.

(** The toggles of the spec's scenario, all three on. *)
Definition sample_toggles : object :=
  <[ "wallet-service-mobile.rollout" := VBool true ]>
    (<[ "push-notification.rollout" := VBool true ]>
       (<[ "other" := VBool true ]> ∅)).

(** The registry of the spec's scenario: it yields the native token and
    [tokA]. *)
Definition sample_registry : list object :=
  [ TokenRecord (VStr "00", VStr "HTR", VStr "Hathor");
    TokenRecord (VStr "tokA", VStr "TKA", VStr "Token A") ].

(** The initialisation event, carrying a toggle set with the wallet service
    on, and an event of another kind. *)
Definition sample_toggle_set : object :=
  <[ "wallet-service-mobile.rollout" := VBool true ]> ∅.

Definition sample_initialized : value :=
  VObj 2 (<[ "type" := VStr "FEATURE_TOGGLE_INITIALIZED" ]>
            (<[ "payload" := VObj 3 sample_toggle_set ]> ∅)).

Definition sample_other : value := kind_event 1 "SET_LOCK_SCREEN".

(** ** Further vocabulary *)

(** A routine that only reads: it has emitted and logged nothing, the store
    is what the reducer made of the events, and it stands either returned
    after at most one resumption, or suspended, never resumed yet, on a
    listener whose continuation returns at once. *)
Definition read_only (I : Imports) (s : object) (events : list value)
    (t : task value) : Prop :=
  emitted t = [] ∧ console t = [] ∧ store t = reduce I s events
  ∧ match standing t with
    | Done _ => resumed t ≤ 1
    | OnTake _ k =>
        resumed t = 0
        ∧ ∀ a s' n, ∃ r, advance I (k a) s' [] [] n = Task s' [] [] n (Done r)
    | _ => False
    end.

(** What [dispatchAndWait] returns on an event [a]: the object of the side
    that resolved. *)
Definition outcome_of (successAction failureAction : pattern) (a : value)
    (outcome : object) : Prop :=
  (matches successAction a = true ∧ outcome = {[ "success" := a ]})
  ∨ (matches successAction a = false ∧ matches failureAction a = true
     ∧ outcome = {[ "falure" := a ]}).

(** Where [dispatchAndWait] can stand over some events: suspended on its
    two listeners, never resumed, no event having matched either; or
    returned, resumed once, with the outcome of one of the events. *)
Definition racing (action : value) (successAction failureAction : pattern)
    (events : list value) (t : task object) : Prop :=
  emitted t = [action] ∧ console t = []
  ∧ match standing t with
    | OnRace effects k =>
        effects = [("success", successAction); ("falure", failureAction)]
        ∧ k = (λ outcome, Ret outcome) ∧ resumed t = 0
        ∧ Forall (unsettling successAction failureAction) events
    | Done outcome =>
        resumed t = 1
        ∧ ∃ a, a ∈ events ∧ outcome_of successAction failureAction a outcome
    | _ => False
    end.

(** The body of the wrapper of [errorHandler] on a nullish action, around
    what is left of the routine: the [catch] block throws before it logs. *)
Definition rethrow (m : Saga value) : Saga value :=
  try_catch (call m (λ _, Ret VUndefined)) (λ _, Throw TypeError).

(** The wrapper's task on a nullish action next to the task of the bare
    routine: the same, but for the value returned and the fault. *)
Definition escapes (t' t : task value) : Prop :=
  match standing t with
  | Done _ =>
      t' = Task (store t) (emitted t) (console t) (resumed t) (Done VUndefined)
  | Failed _ =>
      t' = Task (store t) (emitted t) (console t) (resumed t) (Failed TypeError)
  | OnTake p k =>
      t' = Task (store t) (emitted t) (console t) (resumed t)
             (OnTake p (λ v, rethrow (k v)))
  | OnRace effects k =>
      t' = Task (store t) (emitted t) (console t) (resumed t)
             (OnRace effects (λ o, rethrow (k o)))
  end.

(** The calls of the unregister screen that reach the wallet library. *)
Definition is_unregister (o : screen_op) : bool :=
  match o with UnregisterToken _ => true | _ => false end.

(* ===================================================================== *)
(** * Part IV. Properties                                                 *)
(* ===================================================================== *)

(** ** Values *)

Lemma strict_eq_undefined v : strict_eq v VUndefined = true → v = VUndefined.
Proof. by destruct v. Qed.

Lemma strict_eq_str t v : strict_eq (VStr t) v = true ↔ v = VStr t.
Proof.
  destruct v; simpl; try (split; [done | intros [=]]).
  rewrite String.eqb_eq. split; [by intros -> | by intros [= ->]].
Qed.

Lemma getprop_obj r o k : getprop (VObj r o) k = getfield o k.
Proof. done. Qed.

Lemma getfield_str o k t : getfield o k = VStr t ↔ o !! k = Some (VStr t).
Proof.
  unfold getfield. destruct (o !! k) as [v|]; simpl; [|done].
  split; [by intros -> | by intros [= ->]].
Qed.

(** ** lodash [get] *)

Section get_facts.
Context (L : PathSyntax).

(** What [get] finds on an object is decided by the property named like the
    whole key and by the one named like the first segment of its path. *)
Lemma get_obj_agree r r' (A A' : object) key :
  A' !! key = A !! key →
  (∀ seg, head (stringToPath L key) = Some seg → A' !! seg = A !! seg) →
  get L (VObj r' A') key = get L (VObj r A) key.
Proof.
  intros Hkey Hseg. unfold get, get_default, baseGet, castPath, isKey. simpl.
  rewrite Hkey. destruct (_ || _ || _); simpl.
  - unfold getfield. by rewrite Hkey.
  - destruct (stringToPath L key) as [|seg rest]; [done|]. simpl.
    unfold getfield. by rewrite (Hseg seg eq_refl).
Qed.

(** An own property wins over any reading of its name as a path. *)
Lemma get_own_key r (F : object) key v :
  F !! key = Some v → get L (VObj r F) key = v.
Proof.
  intros Hv. unfold get, get_default, baseGet, castPath, isKey. simpl.
  rewrite Hv. rewrite bool_decide_eq_true_2 by eauto.
  rewrite orb_true_r. simpl. unfold getfield. rewrite Hv. simpl.
  destruct (strict_eq v VUndefined) eqn:E; [|done].
  by apply strict_eq_undefined in E.
Qed.

(** The loop of [baseGet] computes the resolution of the path, with
    [undefined] for a path that leads nowhere. *)
Lemma baseGet_loop_undefined path : baseGet_loop VUndefined path = VUndefined.
Proof. by destruct path. Qed.

Lemma getprop_own v k :
  getprop v k = default VUndefined (own v k).
Proof.
  unfold own. destruct v as [| | | | |s|r o]; simpl; try done.
  - destruct (bool_decide (k = "length")); simpl; [done|].
    by destruct (string_index s k) as [i|].
  - unfold getfield. by destruct (o !! k) as [w|].
Qed.

Lemma baseGet_loop_resolve v path :
  baseGet_loop v path = default VUndefined (resolve v path).
Proof.
  revert v. induction path as [|k rest IH]; intros v; simpl; [done|].
  rewrite getprop_own. unfold own.
  destruct (nullish v); simpl; [done|].
  destruct (has_property v k); simpl; [by rewrite IH|].
  by rewrite baseGet_loop_undefined.
Qed.

Lemma get_missing r (A : object) key :
  resolve (VObj r A) (castPath L key (VObj r A)) = None →
  get L (VObj r A) key = VUndefined.
Proof.
  intros Hnone. unfold get, get_default, baseGet.
  destruct (castPath L key (VObj r A)) as [|k rest]; [done|].
  by rewrite baseGet_loop_resolve, Hnone.
Qed.
End get_facts.

(** ** [specificTypeAndPayload] *)

Lemma forallb_agree {A : Type} (f g : A → bool) (l : list A) :
  (∀ x, x ∈ l → f x = g x) → forallb f l = forallb g l.
Proof.
  induction l as [|x l IH]; intros H; simpl; [done|].
  rewrite (H x) by left.
  rewrite IH; [done|]. intros y Hy. apply H. by right.
Qed.

Lemma not_in_types_false ts x :
  not_in_types ts x = false ↔ ∃ t, t ∈ ts ∧ x = VStr t.
Proof.
  unfold not_in_types. rewrite negb_false_iff, existsb_exists.
  split; intros (t & Ht & E); exists t.
  - apply list_elem_of_In in Ht. by apply strict_eq_str in E.
  - split; [by apply list_elem_of_In | by apply strict_eq_str].
Qed.

Lemma elem_of_own_keys (F : object) key :
  key ∈ (map_to_list F).*1 ↔ is_Some (F !! key).
Proof.
  rewrite list_elem_of_fmap. split.
  - intros ([k v] & -> & Hkv). apply elem_of_map_to_list in Hkv. eauto.
  - intros [v Hv]. exists (key, v). split; [done | by apply elem_of_map_to_list].
Qed.

Section matcher_facts.
Context (L : PathSyntax).

Lemma specificTypeAndPayload_unfold _types pr F ar A :
  specificTypeAndPayload L _types (VObj pr F) (VObj ar A) =
  Some (negb (not_in_types (normalize_types _types) (getfield A "type"))
        && forallb (λ key, strict_eq (get L (VObj ar A) key) (get L (VObj pr F) key))
             (map_to_list F).*1).
Proof.
  unfold specificTypeAndPayload. simpl.
  by destruct (not_in_types _ _).
Qed.

Lemma specificTypeAndPayload_true _types pr F ar A :
  specificTypeAndPayload L _types (VObj pr F) (VObj ar A) = Some true ↔
  kind_accepted _types A ∧ fields_match L F (VObj ar A).
Proof.
  rewrite specificTypeAndPayload_unfold.
  split.
  - intros [= H]. apply andb_true_iff in H as [Hk Hf].
    apply negb_true_iff, not_in_types_false in Hk as (t & Ht & Hty).
    split.
    + exists t. split; [done | by apply getfield_str].
    + intros key expected Hkey.
      rewrite forallb_forall in Hf.
      specialize (Hf key). rewrite (get_own_key L pr F key expected Hkey) in Hf.
      apply Hf, list_elem_of_In, elem_of_own_keys. eauto.
  - intros [(t & Ht & Hty) Hf]. f_equal. apply andb_true_iff. split.
    + apply negb_true_iff, not_in_types_false. exists t.
      split; [done | by apply getfield_str].
    + apply forallb_forall. intros key Hin.
      apply list_elem_of_In, elem_of_own_keys in Hin as [expected Hkey].
      rewrite (get_own_key L pr F key expected Hkey). by apply Hf.
Qed.

(** Two events that agree on the kind, on the properties named like a key
    of the field map and on those a key's path starts at get the same
    answer, whatever their identities. *)
Lemma specificTypeAndPayload_agree _types pr F ar A ar' A' :
  A' !! "type" = A !! "type" →
  (∀ key, is_Some (F !! key) →
     A' !! key = A !! key ∧
     ∀ seg, head (stringToPath L key) = Some seg → A' !! seg = A !! seg) →
  specificTypeAndPayload L _types (VObj pr F) (VObj ar' A') =
  specificTypeAndPayload L _types (VObj pr F) (VObj ar A).
Proof.
  intros Hty Hkeys. rewrite !specificTypeAndPayload_unfold.
  unfold getfield. rewrite Hty. do 2 f_equal.
  apply forallb_agree. intros key Hin.
  apply elem_of_own_keys in Hin. destruct (Hkeys key Hin) as [Hk Hs].
  by rewrite (get_obj_agree L ar ar' A A' key Hk Hs).
Qed.
(** The answer depends on the event through its kind and through what the
    keys of the field map resolve to, and through nothing else. *)
Lemma specificTypeAndPayload_same_reads _types pr F ar A ar' A' :
  A' !! "type" = A !! "type" →
  (∀ key, is_Some (F !! key) → get L (VObj ar' A') key = get L (VObj ar A) key) →
  specificTypeAndPayload L _types (VObj pr F) (VObj ar' A') =
  specificTypeAndPayload L _types (VObj pr F) (VObj ar A).
Proof.
  intros Hty Hreads. rewrite !specificTypeAndPayload_unfold.
  unfold getfield. rewrite Hty. do 2 f_equal.
  apply forallb_agree. intros key Hin.
  apply elem_of_own_keys in Hin. by rewrite (Hreads key Hin).
Qed.
End matcher_facts.

Lemma strict_eq_primitive a b : primitive b → strict_eq a b = true ↔ a = b.
Proof.
  destruct b; simpl; try done; intros _; destruct a; simpl;
    try (split; [done | intros [=]]); try done.
  - rewrite Bool.eqb_true_iff. split; [by intros -> | by intros [= ->]].
  - rewrite Z.eqb_eq. split; [by intros -> | by intros [= ->]].
  - rewrite String.eqb_eq. split; [by intros -> | by intros [= ->]].
Qed.

(** C1. The predicate built by [specificTypeAndPayload] from kinds [_types]
    (one string or a list of strings) and a field map [F] answers, on every
    event, with a boolean, and answers [true] exactly when the kind of the
    event is one of the kinds and every key of [F], dotted paths included,
    resolves on the event to a value [===] to the expected one (which on
    primitives other than NaN is equality of values). A single kind behaves
    as the one-element list. A path some step of which finds no property
    resolves to [undefined]. Writing or deleting an event property that [F]
    does not name (a property other than the kind, that is neither a key of
    [F] nor the first segment of the path of one), and the identity of the
    event, never change the answer; more generally the answer is the same
    on two events with the same kind on which the keys of [F] resolve to the
    same values, however else they differ. The predicate is a function of
    its arguments alone. *)
Theorem specificTypeAndPayload_spec (L : PathSyntax) (_types : action_types)
    (pr : ref) (F : object) (ar : ref) (A : object) :
  let predicate := specificTypeAndPayload L _types (VObj pr F) in
  let event := VObj ar A in
  (predicate event = Some true ∨ predicate event = Some false)
  ∧ (predicate event = Some true ↔
       kind_accepted _types A ∧ fields_match L F event)
  ∧ (∀ key expected, F !! key = Some expected → primitive expected →
       strict_eq (get L event key) expected = true ↔ get L event key = expected)
  ∧ (∀ t, specificTypeAndPayload L (OneType t) (VObj pr F) event =
          specificTypeAndPayload L (ManyTypes [t]) (VObj pr F) event)
  ∧ (∀ key, resolve event (castPath L key event) = None →
       get L event key = VUndefined)
  ∧ (∀ ar' A', A' !! "type" = A !! "type" →
       (∀ key, is_Some (F !! key) → get L (VObj ar' A') key = get L event key) →
       predicate (VObj ar' A') = predicate event)
  ∧ (∀ k v, unrelated L F k → predicate (VObj ar (<[ k := v ]> A)) = predicate event)
  ∧ (∀ k, unrelated L F k → predicate (VObj ar (delete k A)) = predicate event)
  ∧ (∀ ar', predicate (VObj ar' A) = predicate event).
Proof.
  intros predicate event. subst predicate event.
  split; [|split; [|split; [|split; [|split; [|split; [|split; [|split]]]]]]].
  - rewrite specificTypeAndPayload_unfold. destruct (_ && _); auto.
  - apply specificTypeAndPayload_true.
  - intros key expected _ Hprim. by apply strict_eq_primitive.
  - done.
  - intros key. apply get_missing.
  - intros ar' A'. apply specificTypeAndPayload_same_reads.
  - intros k v [Hty Hun]. apply specificTypeAndPayload_agree.
    + by rewrite lookup_insert_ne.
    + intros key Hkey. destruct (Hun key Hkey) as [Hne Hhd]. split.
      * by rewrite lookup_insert_ne.
      * intros seg Hseg. rewrite lookup_insert_ne; [done|]. by intros ->.
  - intros k [Hty Hun]. apply specificTypeAndPayload_agree.
    + by rewrite lookup_delete_ne.
    + intros key Hkey. destruct (Hun key Hkey) as [Hne Hhd]. split.
      * by rewrite lookup_delete_ne.
      * intros seg Hseg. rewrite lookup_delete_ne; [done|]. by intros ->.
  - intros ar'. by apply specificTypeAndPayload_agree.
Qed.

(** On the sample event with a [memo] added, which the field map does not
    name; and a path into a property the payload lacks. *)
Lemma specificTypeAndPayload_spec_witness :
  specificTypeAndPayload dot_paths (OneType "SEND_TX_SUCCESS") (VObj 3 sample_fields)
    (VObj 1 (<[ "memo" := VNum 7 ]> sample_event)) = Some true
  ∧ get dot_paths (VObj 1 sample_event) "payload.symbol" = VUndefined.
Proof.
  destruct (specificTypeAndPayload_spec dot_paths (OneType "SEND_TX_SUCCESS")
              3 sample_fields 1 sample_event)
    as (_ & Htrue & _ & _ & Hmissing & _ & Hunrelated & _).
  split.
  - rewrite Hunrelated.
    + apply Htrue. split.
      * exists "SEND_TX_SUCCESS". split; [by left | reflexivity].
      * intros key expected Hkey.
        unfold sample_fields in Hkey.
        apply lookup_insert_Some in Hkey as [[<- <-]|[_ Hkey]]; [reflexivity|].
        by rewrite lookup_empty in Hkey.
    + split; [done|]. intros key [v Hkey]. unfold sample_fields in Hkey.
      apply lookup_insert_Some in Hkey as [[<- <-]|[_ Hkey]]; [by split|].
      by rewrite lookup_empty in Hkey.
  - apply Hmissing. reflexivity.
Defined.

(** ** Network settings *)

Lemma isWalletServiceUnavailable_iff (s : object) :
  isWalletServiceUnavailable s = true ↔
  s !! "walletServiceUrl" = None ∨ s !! "walletServiceUrl" = Some VNull
  ∨ s !! "walletServiceUrl" = Some VUndefined.
Proof.
  unfold isWalletServiceUnavailable, getfield.
  destruct (s !! "walletServiceUrl") as [[]|]; simpl;
    (split; [intros ?; first [discriminate | auto] | intros [H|[H|H]]; congruence]).
Qed.

(** C6. [disableFeaturesIfNeeded] is idempotent in the toggle set, for every
    settings object and every toggle set. The settings count as lacking the
    wallet service exactly when [walletServiceUrl] is absent, [null] or
    [undefined]; then the wallet service toggle and the push notification
    toggle are both [false] in the result and every other entry is the one
    of the toggle set given. *)
Theorem disableFeaturesIfNeeded_idempotent (I : Imports) (s t : object) :
  disableFeaturesIfNeeded I s (disableFeaturesIfNeeded I s t)
    = disableFeaturesIfNeeded I s t
  ∧ (isWalletServiceUnavailable s = true ↔
       s !! "walletServiceUrl" = None ∨ s !! "walletServiceUrl" = Some VNull
       ∨ s !! "walletServiceUrl" = Some VUndefined)
  ∧ (isWalletServiceUnavailable s = true →
       disableFeaturesIfNeeded I s t !! WALLET_SERVICE_FEATURE_TOGGLE I = Some (VBool false)
       ∧ disableFeaturesIfNeeded I s t !! PUSH_NOTIFICATION_FEATURE_TOGGLE I
           = Some (VBool false)
       ∧ ∀ k, k ≠ WALLET_SERVICE_FEATURE_TOGGLE I →
              k ≠ PUSH_NOTIFICATION_FEATURE_TOGGLE I →
              disableFeaturesIfNeeded I s t !! k = t !! k).
Proof.
  unfold disableFeaturesIfNeeded. split; [|split].
  - destruct (isWalletServiceUnavailable s); [|done].
    apply map_eq. intros k. rewrite !lookup_insert.
    repeat case_decide; done.
  - apply isWalletServiceUnavailable_iff.
  - intros ->. split; [|split].
    + rewrite !lookup_insert. repeat case_decide; done.
    + by rewrite lookup_insert_eq.
    + intros k Hw Hp. by rewrite !lookup_insert_ne.
Qed.

(** The scenario of the spec: no wallet service URL, three toggles on. *)
Lemma disableFeaturesIfNeeded_idempotent_witness :
  let s : object := <[ "walletServiceUrl" := VNull ]> ∅ in
  disableFeaturesIfNeeded sample_imports s sample_toggles
    !! "wallet-service-mobile.rollout" = Some (VBool false)
  ∧ disableFeaturesIfNeeded sample_imports s sample_toggles
    !! "push-notification.rollout" = Some (VBool false)
  ∧ disableFeaturesIfNeeded sample_imports s sample_toggles !! "other"
    = Some (VBool true).
Proof.
  intros s.
  destruct (disableFeaturesIfNeeded_idempotent sample_imports s sample_toggles)
    as (_ & _ & H).
  destruct (H eq_refl) as (Hw & Hp & Hother).
  split; [exact Hw | split; [exact Hp |]].
  rewrite (Hother "other"); [reflexivity | done | done].
Defined.

(** C3. [getNetworkSettings] returns the persisted settings whenever the
    storage holds a value for the key that is neither [null] nor
    [undefined], also when that value is falsy or an empty object, and falls
    back to [state.networkSettings] only when the persisted value is [null],
    [undefined] or absent. *)
Theorem getNetworkSettings_precedence (I : Imports) (STORE state : object) :
  let persisted := STORE_getItem STORE (networkSettingsKey I) in
  (nullish persisted = false → getNetworkSettings I STORE state = persisted)
  ∧ (nullish persisted = true →
       getNetworkSettings I STORE state = getfield state "networkSettings")
  ∧ (∀ v, STORE !! networkSettingsKey I = Some v →
       v = VBool false ∨ v = VNum 0 ∨ v = VStr "" ∨ v = VNaN ∨ (∃ r, v = VObj r ∅) →
       getNetworkSettings I STORE state = v)
  ∧ (STORE !! networkSettingsKey I = None →
       getNetworkSettings I STORE state = getfield state "networkSettings").
Proof.
  intros persisted. subst persisted.
  unfold getNetworkSettings, nullish_coalesce, STORE_getItem.
  split; [|split; [|split]].
  - by intros ->.
  - by intros ->.
  - intros v -> Hv. simpl. destruct Hv as [->|[->|[->|[->|[r ->]]]]]; done.
  - by intros ->.
Qed.

(** A persisted empty object wins; a persisted [null] and an empty storage
    defer to the state. *)
Lemma getNetworkSettings_precedence_witness :
  let state : object := <[ "networkSettings" := VStr "mainnet" ]> ∅ in
  getNetworkSettings sample_imports
    (<[ "networkSettings:networkSettings" := VObj 5 ∅ ]> ∅) state = VObj 5 ∅
  ∧ getNetworkSettings sample_imports
      (<[ "networkSettings:networkSettings" := VNull ]> ∅) state = VStr "mainnet"
  ∧ getNetworkSettings sample_imports ∅ state = VStr "mainnet".
Proof.
  intros state. split; [|split].
  - destruct (getNetworkSettings_precedence sample_imports
                (<[ "networkSettings:networkSettings" := VObj 5 ∅ ]> ∅) state)
      as (H & _ & Hfalsy & _).
    apply (Hfalsy (VObj 5 ∅)); [reflexivity|]. do 4 right. by exists 5.
  - destruct (getNetworkSettings_precedence sample_imports
                (<[ "networkSettings:networkSettings" := VNull ]> ∅) state)
      as (_ & H & _).
    rewrite H; reflexivity.
  - destruct (getNetworkSettings_precedence sample_imports ∅ state)
      as (_ & _ & _ & H).
    rewrite H; reflexivity.
Defined.

(** ** [getRegisteredTokens] *)

Section tokens_facts.
Context (I : Imports).

Lemma drain_keep_all iterator tokens :
  drain I false iterator tokens = tokens ++ (token_record <$> iterator).
Proof.
  revert tokens. induction iterator as [|token rest IH]; intros tokens; simpl.
  - by rewrite app_nil_r.
  - rewrite IH. by rewrite <- app_assoc.
Qed.

Lemma token_record_uid token :
  getfield (token_record token) "uid" = getfield token "uid".
Proof. unfold token_record, getfield at 1. by rewrite lookup_insert_eq. Qed.

Lemma drain_exclude iterator tokens :
  drain I true iterator tokens
  = tokens ++ (token_record <$> filter (λ token, is_native I token = false) iterator).
Proof.
  revert tokens. induction iterator as [|token rest IH]; intros tokens; simpl.
  - by rewrite app_nil_r.
  - rewrite IH.
    change (strict_eq (getfield token "uid") (VStr (htrUid I))) with (is_native I token).
    destruct (is_native I token) eqn:E; simpl.
    + rewrite filter_cons_False; [done|]. by rewrite E.
    + rewrite filter_cons_True by done. by rewrite fmap_cons, <- app_assoc.
Qed.
End tokens_facts.

Lemma token_record_TokenRecord fields : token_record (TokenRecord fields) = TokenRecord fields.
Proof. by destruct fields as [[uid symbol] name]. Qed.

(** C7. With [excludeHTR = false], whatever the registry yields, the list
    returned is the static default tokens in their declared order followed by
    one record per yielded token, in the order they were yielded; each such
    record carries the [uid], [symbol] and [name] of its token (it is the
    token itself when the token has exactly these fields), and nothing is
    removed: the length is the sum of the lengths, so a token that is both
    default and registered appears twice. *)
Theorem getRegisteredTokens_defaults_first (I : Imports) (registered : list object) :
  getRegisteredTokens I registered false
    = INITIAL_TOKENS I ++ (token_record <$> registered)
  ∧ (∀ records : list (value * value * value),
       getRegisteredTokens I (TokenRecord <$> records) false
       = INITIAL_TOKENS I ++ (TokenRecord <$> records))
  ∧ length (getRegisteredTokens I registered false)
    = length (INITIAL_TOKENS I) + length registered
  ∧ (λ record, getfield record "uid") <$> getRegisteredTokens I registered false
    = ((λ record, getfield record "uid") <$> INITIAL_TOKENS I)
      ++ ((λ token, getfield token "uid") <$> registered).
Proof.
  assert (Heq : getRegisteredTokens I registered false
                = INITIAL_TOKENS I ++ (token_record <$> registered)).
  { unfold getRegisteredTokens. simpl. by rewrite drain_keep_all. }
  split; [exact Heq | split; [|split]].
  - intros records. unfold getRegisteredTokens. simpl. rewrite drain_keep_all. simpl.
    f_equal. rewrite <- list_fmap_compose. apply list_fmap_ext.
    intros i fields _. apply token_record_TokenRecord.
  - rewrite Heq, length_app, length_fmap. done.
  - rewrite Heq, fmap_app. f_equal. rewrite <- list_fmap_compose.
    apply list_fmap_ext. intros i token _. apply token_record_uid.
Qed.

(** The scenario of the spec, with and without the native token. *)
Example getRegisteredTokens_keep_native :
  getRegisteredTokens sample_imports sample_registry false
  = [ TokenRecord (VStr "00", VStr "HTR", VStr "Hathor");
      TokenRecord (VStr "00", VStr "HTR", VStr "Hathor");
      TokenRecord (VStr "tokA", VStr "TKA", VStr "Token A") ].
Proof. reflexivity. Qed.

Example getRegisteredTokens_drop_native :
  getRegisteredTokens sample_imports sample_registry true
  = [ TokenRecord (VStr "tokA", VStr "TKA", VStr "Token A") ].
Proof. reflexivity. Qed.

Lemma existsb_none {A : Type} (f : A → bool) (l : list A) :
  Forall (λ x, f x = false) l → existsb f l = false.
Proof. induction 1 as [|x l Hx _ IH]; simpl; [done|]. by rewrite Hx, IH. Qed.

(** C8. With [excludeHTR = true], whatever the registry yields, no record of
    the list returned has the uid of the native token: the list is one record
    per yielded token whose [uid] is not [===] to the native uid, the static
    default tokens are not added, and the [uid] of every record differs from
    the native one. *)
Theorem getRegisteredTokens_excludes_native (I : Imports) (registered : list object) :
  Forall (λ record, getfield record "uid" ≠ VStr (htrUid I))
    (getRegisteredTokens I registered true)
  ∧ existsb (is_native I) (getRegisteredTokens I registered true) = false
  ∧ getRegisteredTokens I registered true
    = token_record <$> filter (λ token, is_native I token = false) registered.
Proof.
  assert (Heq : getRegisteredTokens I registered true
                = token_record <$> filter (λ token, is_native I token = false) registered).
  { unfold getRegisteredTokens. simpl. by rewrite drain_exclude. }
  assert (Hall : Forall (λ record, is_native I record = false)
                   (getRegisteredTokens I registered true)).
  { rewrite Heq. apply Forall_fmap, Forall_forall. intros token Hin.
    apply list_elem_of_filter in Hin as [Hnat _]. simpl.
    unfold is_native in *. by rewrite token_record_uid. }
  split; [|split; [|exact Heq]].
  - eapply Forall_impl; [exact Hall|]. intros record Hnat Huid. simpl in Hnat.
    unfold is_native in Hnat. rewrite Huid in Hnat. simpl in Hnat.
    by rewrite String.eqb_refl in Hnat.
  - by apply existsb_none.
Qed.

(** ** [showPinScreenForResult] *)

Lemma session_unfold (I : Imports) (pins : list value) :
  session (showPinScreenForResult I redux_dispatch) pins
  = Navigate "PinScreen"
      (PinParams (λ _pin, [Dispatch (setIsShowingPinScreen false); Resolve _pin]) false
         (ttag_t I "Enter your 6-digit pin to authorize operation")
         (ttag_t I "Authorize operation"))
    :: Dispatch (setIsShowingPinScreen true)
    :: (pins ≫= λ _pin, [Dispatch (setIsShowingPinScreen false); Resolve _pin]).
Proof. reflexivity. Qed.

(** C5, as stated, fails: in a session of the bridge the modal is presented
    first and the flag is raised after it. *)
Lemma showPinScreenForResult_raises_flag_late :
  ¬ raised_before_presenting
      (session (showPinScreenForResult sample_imports redux_dispatch) [VStr "123456"]).
Proof.
  intros (i & j & Hi & Hj & Hlt). simpl in Hi, Hj.
  injection Hi as <-. injection Hj as <-. lia.
Qed.

(** C5, amended. On every invocation of the bridge the modal presentation
    collaborator is invoked first and the flag is set to [true] right after
    it, in the same run of the executor, which does nothing else; the flag is
    set back to [false] exactly once, inside the completion callback and
    nowhere else, before the promise resolves with the secret entered (once
    per completion, should the screen complete more than once). *)
Theorem showPinScreenForResult_flag_order (I : Imports) (pin : value) (initial : bool)
    (pins : list value) :
  let executor := showPinScreenForResult I redux_dispatch in
  let trace := session executor [pin] in
  length executor = 2
  ∧ position is_navigate executor = Some 0
  ∧ position (sets_flag true) executor = Some 1
  ∧ modal_visible initial executor = true
  ∧ occurrences (sets_flag false) executor = 0
  ∧ (λ onComplete, onComplete pin) <$> callbacks executor
    = [[Dispatch (setIsShowingPinScreen false); Resolve pin]]
  ∧ occurrences (sets_flag false) trace = 1
  ∧ position (sets_flag false) trace = Some 2
  ∧ position is_resolve trace = Some 3
  ∧ modal_visible initial trace = false
  ∧ promise_value trace = Some pin
  ∧ occurrences (sets_flag false) (session executor pins) = length pins.
Proof.
  repeat split. rewrite session_unfold. unfold occurrences.
  rewrite !filter_cons_False by (simpl; discriminate).
  induction pins as [|p pins IH]; [done|].
  change (length (filter (λ o, sets_flag false o = true)
                    (Dispatch (setIsShowingPinScreen false) :: Resolve p
                     :: (pins ≫= λ _pin, [Dispatch (setIsShowingPinScreen false);
                                          Resolve _pin])))
          = S (length pins)).
  rewrite filter_cons_True by reflexivity.
  rewrite filter_cons_False by (simpl; discriminate).
  simpl. by rewrite IH.
Qed.

(** C10. Whatever [dispatch] the bridge is given, the one thing it presents
    is the pin screen with [canCancel] equal to [false] and the fixed,
    translated prompt texts; the bridge has no other argument, so no caller
    can change them. In a session on the store's [dispatch], however many
    secrets are entered, that presentation is the only one. *)
Theorem showPinScreenForResult_not_cancellable (I : Imports)
    (dispatch : pin_screen_action → list op) (pins : list value) :
  (∃ params,
     showPinScreenForResult I dispatch
     = Navigate "PinScreen" params :: dispatch (setIsShowingPinScreen true)
     ∧ canCancel params = false
     ∧ screenText params = ttag_t I "Enter your 6-digit pin to authorize operation"
     ∧ biometryText params = ttag_t I "Authorize operation")
  ∧ presented (session (showPinScreenForResult I redux_dispatch) pins)
    = [("PinScreen", false,
        ttag_t I "Enter your 6-digit pin to authorize operation",
        ttag_t I "Authorize operation")].
Proof.
  split.
  - eexists. repeat split.
  - rewrite session_unfold. unfold presented. simpl. f_equal.
    induction pins as [|pin pins IH]; [done|]. exact IH.
Qed.

(** ** The middleware *)

Section middleware_facts.
Context (I : Imports).

Lemma run_app {R : Type} (t : task R) (l1 l2 : list value) :
  run I t (l1 ++ l2) = run I (run I t l1) l2.
Proof. apply foldl_app. Qed.

Lemma run_cons {R : Type} (t : task R) (a : value) (l : list value) :
  run I t (a :: l) = run I (deliver I t a) l.
Proof. done. Qed.

(** A routine that returned or failed is out of the stream's reach. *)
Lemma run_done {R : Type} s out log n (r : R) events :
  run I (Task s out log n (Done r)) events
  = Task (reduce I s events) out log n (Done r).
Proof.
  revert s. induction events as [|a events IH]; intros s; [done|].
  rewrite run_cons. unfold deliver. simpl. apply IH.
Qed.

Lemma run_failed {R : Type} s out log n e events :
  run I (Task s out log n (@Failed R e)) events
  = Task (reduce I s events) out log n (Failed e).
Proof.
  revert s. induction events as [|a events IH]; intros s; [done|].
  rewrite run_cons. unfold deliver. simpl. apply IH.
Qed.

(** Events that match no listener leave a suspended routine suspended. *)
Lemma run_take_skip {R : Type} s out log n p (k : value → Saga R) events :
  Forall (λ a, matches p a = false) events →
  run I (Task s out log n (OnTake p k)) events
  = Task (reduce I s events) out log n (OnTake p k).
Proof.
  intros Hall. revert s. induction Hall as [|a events Ha _ IH]; intros s; [done|].
  rewrite run_cons. unfold deliver. simpl. rewrite Ha. apply IH.
Qed.

Lemma winner_none effects a :
  Forall (λ e, matches e.2 a = false) effects → winner effects a = None.
Proof.
  unfold winner. induction 1 as [|e effects He _ IH]; simpl; [done|].
  by rewrite He.
Qed.

Lemma run_race_skip {R : Type} s out log n effects (k : object → Saga R) events :
  Forall (λ a, winner effects a = None) events →
  run I (Task s out log n (OnRace effects k)) events
  = Task (reduce I s events) out log n (OnRace effects k).
Proof.
  intros Hall. revert s. induction Hall as [|a events Ha _ IH]; intros s; [done|].
  rewrite run_cons. unfold deliver. simpl. rewrite Ha. apply IH.
Qed.

Lemma reduce_app s l1 l2 : reduce I s (l1 ++ l2) = reduce I (reduce I s l1) l2.
Proof. apply foldl_app. Qed.
End middleware_facts.

(** ** [checkForFeatureFlag] *)

Lemma split_dots_nonempty s : split_dots s ≠ [].
Proof.
  destruct s as [|c s]; simpl; [done|].
  by destruct (Ascii.eqb c dot), (split_dots s).
Qed.

Lemma split_dots_single s seg : split_dots s = [seg] → seg = s.
Proof.
  revert seg. induction s as [|c s IH]; intros seg; simpl.
  - by intros [= <-].
  - destruct (Ascii.eqb c dot).
    + intros [= _ H]. by apply split_dots_nonempty in H.
    + destruct (split_dots s) as [|seg' segs] eqn:E.
      * by apply split_dots_nonempty in E.
      * intros [= <- ->]. by rewrite (IH seg').
Qed.

Lemma dot_paths_names_itself flag : names_itself dot_paths flag.
Proof. intros seg. apply split_dots_single. Qed.

Section feature_flag_facts.
Context (L : PathSyntax) (I : Imports).

Lemma js_or_default flag :
  boolean_valued (FEATURE_TOGGLE_DEFAULTS I) →
  js_or (getfield (FEATURE_TOGGLE_DEFAULTS I) flag) (VBool false)
  = match FEATURE_TOGGLE_DEFAULTS I !! flag with
    | Some d => d
    | None => VBool false
    end.
Proof.
  intros Hbool. unfold js_or, getfield.
  destruct (FEATURE_TOGGLE_DEFAULTS I !! flag) as [d|] eqn:E; simpl; [|done].
  destruct (Hbool _ _ E) as [[] ->]; done.
Qed.

(** [get] on a toggle set reads the flag as a property name. *)
Lemma get_default_toggles r toggles flag d :
  boolean_valued toggles → names_itself L flag →
  get_default L (VObj r toggles) flag d = default d (toggles !! flag).
Proof.
  intros Hbool Hname. unfold get_default, baseGet, castPath, isKey. simpl.
  destruct (toggles !! flag) as [v|] eqn:E.
  - rewrite orb_true_r. simpl. unfold getfield. rewrite E. simpl.
    by destruct (Hbool _ _ E) as [b ->].
  - rewrite orb_false_r.
    destruct (_ || _); simpl.
    + unfold getfield. by rewrite E.
    + destruct (stringToPath L flag) as [|seg [|seg' rest]] eqn:Hpath; [done| |].
      * rewrite (Hname seg Hpath). simpl. unfold getfield. by rewrite E.
      * simpl. unfold getfield.
        destruct (toggles !! seg) as [v|] eqn:Eseg; simpl; [|done].
        destruct (Hbool _ _ Eseg) as [b ->]. simpl.
        by rewrite baseGet_loop_undefined.
Qed.
End feature_flag_facts.

(** C9. Let the toggle set and the static defaults map names to booleans and
    let the flag name stand for itself. If the readiness flag of the store is
    already true, [checkForFeatureFlag] does not suspend: it returns at once,
    never resumed, with the value of the flag in the toggle set of the store
    if the set has it, else the static default of the flag, else [false]. If
    the readiness flag is false, it suspends on [FEATURE_TOGGLE_INITIALIZED],
    stays suspended over every event of another kind, and on the first event
    of that kind it is resumed, once, and returns the value of the flag in
    the toggle set the store holds by then. *)
Theorem checkForFeatureFlag_spec (L : PathSyntax) (I : Imports) (flag : string)
    (s : object) (before after : list value) (a : value) (r : ref) (toggles : object) :
  names_itself L flag →
  boolean_valued (FEATURE_TOGGLE_DEFAULTS I) →
  boolean_valued toggles →
  let initialized := PatType (FEATURE_TOGGLE_INITIALIZED I) in
  let t0 := start I (checkForFeatureFlag L I flag) s in
  (truthy (getfield s "featureTogglesInitialized") = true →
   getfield s "featureToggles" = VObj r toggles →
   standing t0 = Done (flag_value I toggles flag)
   ∧ resumed t0 = 0 ∧ listeners t0 = [])
  ∧ (truthy (getfield s "featureTogglesInitialized") = false →
     suspended t0 = true ∧ listeners t0 = [initialized]
     ∧ (Forall (λ e, matches initialized e = false) before →
        suspended (run I t0 before) = true
        ∧ listeners (run I t0 before) = [initialized]
        ∧ resumed (run I t0 before) = 0)
     ∧ (Forall (λ e, matches initialized e = false) before →
        matches initialized a = true →
        getfield (reduce I s (before ++ [a])) "featureToggles" = VObj r toggles →
        standing (run I t0 (before ++ a :: after)) = Done (flag_value I toggles flag)
        ∧ resumed (run I t0 (before ++ a :: after)) = 1
        ∧ listeners (run I t0 (before ++ a :: after)) = [])).
Proof.
  intros Hname Hdefaults Htoggles initialized t0.
  assert (Hvalue : get_default L (VObj r toggles) flag
                     (js_or (getfield (FEATURE_TOGGLE_DEFAULTS I) flag) (VBool false))
                   = flag_value I toggles flag).
  { rewrite get_default_toggles, js_or_default by done.
    unfold flag_value. by destruct (toggles !! flag). }
  subst t0. unfold start, checkForFeatureFlag, waitForFeatureToggleInitialization.
  simpl. split.
  - intros -> Hstore. simpl. by rewrite Hstore, Hvalue.
  - intros ->. simpl. split; [done | split; [done | split]].
    + intros Hskip. by rewrite (run_take_skip I _ _ _ _ _ _ before Hskip).
    + intros Hskip Ha Hstore.
      rewrite run_app, (run_take_skip I _ _ _ _ _ _ before Hskip), run_cons.
      unfold deliver. simpl. fold initialized. rewrite Ha. simpl.
      unfold reduce in Hstore. rewrite foldl_app in Hstore. simpl in Hstore.
      unfold reduce. rewrite Hstore, Hvalue.
      by rewrite run_done.
Qed.

Lemma sample_defaults_boolean : boolean_valued (FEATURE_TOGGLE_DEFAULTS sample_imports).
Proof.
  intros k v H. simpl in H.
  apply lookup_insert_Some in H as [[_ <-]|[_ H]]; [by eexists|].
  apply lookup_insert_Some in H as [[_ <-]|[_ H]]; [by eexists|].
  by rewrite lookup_empty in H.
Qed.

Lemma sample_toggle_set_boolean : boolean_valued sample_toggle_set.
Proof.
  intros k v H. unfold sample_toggle_set in H.
  apply lookup_insert_Some in H as [[_ <-]|[_ H]]; [by eexists|].
  by rewrite lookup_empty in H.
Qed.

(** A store that is not ready, an event of another kind, the initialisation
    event, one more event; and a store that is ready, on a flag only the
    defaults know. *)
Lemma checkForFeatureFlag_spec_witness :
  standing (run sample_imports
              (start sample_imports
                 (checkForFeatureFlag dot_paths sample_imports "wallet-service-mobile.rollout") ∅)
              ([sample_other] ++ sample_initialized :: [sample_other]))
  = Done (VBool true)
  ∧ standing (start sample_imports
                (checkForFeatureFlag dot_paths sample_imports "nano-contract.rollout")
                (<[ "featureTogglesInitialized" := VBool true ]>
                   (<[ "featureToggles" := VObj 3 sample_toggle_set ]> ∅)))
    = Done (VBool true).
Proof.
  split.
  - destruct (checkForFeatureFlag_spec dot_paths sample_imports
                "wallet-service-mobile.rollout" ∅ [sample_other] [sample_other]
                sample_initialized 3 sample_toggle_set
                (dot_paths_names_itself _) sample_defaults_boolean
                sample_toggle_set_boolean) as [_ H].
    destruct (H eq_refl) as (_ & _ & _ & Hrun).
    destruct Hrun as (Hdone & _ & _).
    + by repeat constructor.
    + reflexivity.
    + reflexivity.
    + exact Hdone.
  - destruct (checkForFeatureFlag_spec dot_paths sample_imports
                "nano-contract.rollout"
                (<[ "featureTogglesInitialized" := VBool true ]>
                   (<[ "featureToggles" := VObj 3 sample_toggle_set ]> ∅))
                [] [] VNull 3 sample_toggle_set
                (dot_paths_names_itself _) sample_defaults_boolean
                sample_toggle_set_boolean) as [H _].
    destruct H as (Hdone & _ & _); [reflexivity | reflexivity |].
    exact Hdone.
Defined.

(** ** [dispatchAndWait] *)

Lemma unsettling_winner successAction failureAction e :
  unsettling successAction failureAction e →
  winner [("success", successAction); ("falure", failureAction)] e = None.
Proof. intros [Hs Hf]. unfold winner. simpl. by rewrite Hs, Hf. Qed.

(** C2. [dispatchAndWait] first emits the command, and nothing else, then
    suspends with one listener per outcome pattern. It stays suspended over
    events that match neither. On the first event that matches one of them it
    is resumed and returns an object whose only key names the side that
    resolved ([success], or [falure] as the source spells it; [success] when
    the event matches both) and holds the matched event. From then on it has
    no listener left and is never resumed again, whatever events follow, the
    other outcome event included: it was resumed exactly once. *)
Theorem dispatchAndWait_spec (I : Imports) (action : value)
    (successAction failureAction : pattern) (s : object)
    (before after : list value) (a : value) :
  let t0 := start I (dispatchAndWait action successAction failureAction) s in
  let resolved := run I t0 (before ++ [a]) in
  let t := run I t0 (before ++ a :: after) in
  (emitted t0 = [action] ∧ store t0 = reducer I s action
   ∧ suspended t0 = true ∧ listeners t0 = [successAction; failureAction]
   ∧ resumed t0 = 0)
  ∧ (Forall (unsettling successAction failureAction) before →
     (suspended (run I t0 before) = true
      ∧ listeners (run I t0 before) = [successAction; failureAction]
      ∧ resumed (run I t0 before) = 0)
     ∧ (matches successAction a = true →
        standing resolved = Done {[ "success" := a ]} ∧ listeners resolved = []
        ∧ standing t = Done {[ "success" := a ]} ∧ listeners t = []
        ∧ resumed t = 1 ∧ emitted t = [action])
     ∧ (matches successAction a = false → matches failureAction a = true →
        standing resolved = Done {[ "falure" := a ]} ∧ listeners resolved = []
        ∧ standing t = Done {[ "falure" := a ]} ∧ listeners t = []
        ∧ resumed t = 1 ∧ emitted t = [action])).
Proof.
  intros t0 resolved t. subst t0 resolved t.
  unfold start, dispatchAndWait. simpl. split; [done|].
  intros Hskip.
  assert (Hnone : Forall (λ e, winner [("success", successAction);
                                       ("falure", failureAction)] e = None) before).
  { eapply Forall_impl; [exact Hskip|]. apply unsettling_winner. }
  rewrite !run_app, !(run_race_skip I _ _ _ _ _ _ before Hnone).
  split; [done|]. rewrite !run_cons. unfold deliver, winner. simpl. split.
  - intros ->. simpl. by rewrite run_done.
  - intros -> ->. simpl. by rewrite run_done.
Qed.

(** The scenario of the spec: [SEND_TX] raced on its two outcomes; the
    failure arrives first and the success follows in the same tick. *)
Lemma dispatchAndWait_spec_witness :
  let t := run sample_imports
             (start sample_imports
                (dispatchAndWait (kind_event 1 "SEND_TX")
                   (PatType "SEND_TX_SUCCESS") (PatType "SEND_TX_FAILED")) ∅)
             ([kind_event 2 "NEW_TX"] ++ kind_event 3 "SEND_TX_FAILED"
                :: [kind_event 4 "SEND_TX_SUCCESS"]) in
  standing t = Done {[ "falure" := kind_event 3 "SEND_TX_FAILED" ]}
  ∧ resumed t = 1 ∧ listeners t = [] ∧ emitted t = [kind_event 1 "SEND_TX"].
Proof.
  intros t.
  destruct (dispatchAndWait_spec sample_imports (kind_event 1 "SEND_TX")
              (PatType "SEND_TX_SUCCESS") (PatType "SEND_TX_FAILED") ∅
              [kind_event 2 "NEW_TX"] [kind_event 4 "SEND_TX_SUCCESS"]
              (kind_event 3 "SEND_TX_FAILED")) as [_ H].
  destruct H as (_ & _ & H); [by repeat constructor|].
  destruct (H eq_refl eq_refl) as (_ & _ & Hdone & Hlisteners & Hresumed & Hemitted).
  by repeat split.
Defined.

(** ** [errorHandler] *)

Section errorHandler_facts.
Context (I : Imports) (failureAction action : value).

Lemma errorHandler_supervise saga :
  nullish action = false →
  errorHandler saga failureAction action = supervise failureAction action (saga action).
Proof.
  intros Hobj. unfold errorHandler, supervise, compensate.
  f_equal. by rewrite Hobj.
Qed.

Lemma advance_supervise m s out log n :
  supervises failureAction action
    (advance I (supervise failureAction action m) s out log n)
    (advance I m s out log n).
Proof.
  revert s out log n.
  induction m as [r|e|sel k IH|a k IH|p k IH|effects k IH|args k IH];
    intros s out log n; simpl; first [apply IH | done].
Qed.

Lemma deliver_supervises t' t a :
  supervises failureAction action t' t →
  supervises failureAction action (deliver I t' a) (deliver I t a).
Proof.
  unfold supervises. destruct t as [s out log n st], t' as [s' out' log' n' st'].
  simpl. destruct st as [r|e|p k|effects k]; simpl.
  - intros (-> & -> & -> & -> & ->). by unfold deliver.
  - intros (-> & -> & -> & ->). by unfold deliver.
  - intros [= -> -> -> -> ->]. unfold deliver. simpl.
    destruct (matches p a); [|done]. apply advance_supervise.
  - intros [= -> -> -> -> ->]. unfold deliver. simpl.
    destruct (winner effects a) as [[key ?]|]; [|done]. apply advance_supervise.
Qed.

Lemma run_supervises t' t events :
  supervises failureAction action t' t →
  supervises failureAction action (run I t' events) (run I t events).
Proof.
  revert t' t. induction events as [|a events IH]; intros t' t H; [done|].
  rewrite !run_cons. by apply IH, deliver_supervises.
Qed.
End errorHandler_facts.

(** C4. Started on an action, on any store and over any events, the wrapper
    produced by [errorHandler] never fails: no fault of the routine reaches
    its caller. When the routine fails, the wrapper returns and has emitted
    what the routine had emitted followed by the compensating event, once,
    and logged the fault. When the routine returns, the wrapper returns and
    has emitted what the routine emitted, nothing more; while the routine is
    suspended so is the wrapper, on the same listeners. *)
Theorem errorHandler_spec (I : Imports) (saga : value → Saga value)
    (failureAction action : value) (s : object) (events : list value) :
  nullish action = false →
  let supervised := run I (start I (errorHandler saga failureAction action) s) events in
  let bare := run I (start I (saga action) s) events in
  (∀ e, standing supervised ≠ Failed e)
  ∧ (∀ e, standing bare = Failed e →
       standing supervised = Done VUndefined
       ∧ emitted supervised = emitted bare ++ [failureAction]
       ∧ console supervised = console bare ++ [captured action e])
  ∧ (∀ r, standing bare = Done r →
       standing supervised = Done VUndefined ∧ emitted supervised = emitted bare
       ∧ console supervised = console bare)
  ∧ (suspended bare = true →
       suspended supervised = true ∧ emitted supervised = emitted bare
       ∧ listeners supervised = listeners bare).
Proof.
  intros Hobj supervised bare.
  assert (H : supervises failureAction action supervised bare).
  { subst supervised bare. apply run_supervises. unfold start.
    rewrite errorHandler_supervise by done. apply advance_supervise. }
  clearbody supervised bare. unfold supervises in H.
  unfold suspended, listeners.
  destruct (standing bare) as [r|e|p k|effects k].
  - destruct H as (Hst & _ & Hem & Hlog & _). rewrite Hst.
    split; [done | split; [done | split; [|done]]]. by intros r' _.
  - destruct H as (Hst & Hem & Hlog & _). rewrite Hst.
    split; [done | split; [|split; [done | done]]]. by intros e' [= <-].
  - subst supervised. simpl. by repeat split.
  - subst supervised. simpl. by repeat split.
Qed.

(** The scenario of the spec: a routine that always throws. *)
Lemma errorHandler_spec_witness :
  let failed := kind_event 9 "SEND_TX_FAILED" in
  let supervised :=
    start sample_imports
      (errorHandler (λ _, Throw (VStr "boom")) failed (kind_event 1 "SEND_TX")) ∅ in
  standing supervised = Done VUndefined ∧ emitted supervised = [failed]
  ∧ console supervised = [[VStr "Captured error in SEND_TX saga"; VStr "boom"]].
Proof.
  intros failed supervised.
  destruct (errorHandler_spec sample_imports (λ _, Throw (VStr "boom")) failed
              (kind_event 1 "SEND_TX") ∅ [] eq_refl) as (_ & H & _).
  exact (H (VStr "boom") eq_refl).
Defined.

(** Outside the theorem: on a nullish action the log line of the [catch]
    block itself raises, and that [TypeError] is what the caller sees. *)
Example errorHandler_nullish_action :
  standing (start sample_imports
              (errorHandler (λ _, Throw (VStr "boom")) (kind_event 9 "SEND_TX_FAILED")
                 VUndefined) ∅)
  = Failed TypeError.
Proof. reflexivity. Qed.

(* ===================================================================== *)
(** * Part V. Further properties of the helpers                           *)
(* ===================================================================== *)

(** ** Tokens *)

Lemma getRegisteredTokens_false_eq (I : Imports) (registered : list object) :
  getRegisteredTokens I registered false
  = INITIAL_TOKENS I ++ (token_record <$> registered).
Proof. unfold getRegisteredTokens. simpl. by rewrite drain_keep_all. Qed.

Lemma getRegisteredTokens_true_eq (I : Imports) (registered : list object) :
  getRegisteredTokens I registered true
  = token_record <$> filter (λ token, is_native I token = false) registered.
Proof. unfold getRegisteredTokens. simpl. by rewrite drain_exclude. Qed.

Lemma existsb_elem_of {A : Type} (f : A → bool) (l : list A) :
  existsb f l = true ↔ ∃ x, x ∈ l ∧ f x = true.
Proof.
  rewrite existsb_exists. split; intros (x & Hx & Hf); exists x;
    (split; [by apply list_elem_of_In | done]).
Qed.

(** X1. A uid counts as registered exactly when a static default token or a
    token the registry yields has a [uid] that is [===] to it; hence
    registering more tokens never makes a registered uid unregistered. *)
Theorem isTokenRegistered_iff (I : Imports) (registered more : list object)
    (tokenUid : value) :
  (isTokenRegistered I registered tokenUid = true ↔
     ∃ token, (token ∈ INITIAL_TOKENS I ∨ token ∈ registered)
              ∧ strict_eq (getfield token "uid") tokenUid = true)
  ∧ (isTokenRegistered I registered tokenUid = true →
     isTokenRegistered I (registered ++ more) tokenUid = true
     ∧ isTokenRegistered I (more ++ registered) tokenUid = true).
Proof.
  assert (Hiff : ∀ reg, isTokenRegistered I reg tokenUid = true ↔
            ∃ token, (token ∈ INITIAL_TOKENS I ∨ token ∈ reg)
                     ∧ strict_eq (getfield token "uid") tokenUid = true).
  { intros reg. unfold isTokenRegistered.
    rewrite getRegisteredTokens_false_eq, existsb_elem_of. split.
    - intros (record & Hin & Huid). apply elem_of_app in Hin as [Hin|Hin].
      + exists record. auto.
      + apply list_elem_of_fmap in Hin as (token & -> & Hin).
        exists token. rewrite token_record_uid in Huid. auto.
    - intros (token & [Hin|Hin] & Huid).
      + exists token. split; [|done]. apply elem_of_app. auto.
      + exists (token_record token). rewrite token_record_uid. split; [|done].
        apply elem_of_app. right. by apply list_elem_of_fmap_2. }
  split; [apply Hiff|].
  intros (token & Hin & Huid)%Hiff.
  split; apply Hiff; exists token; (split; [|done]);
    destruct Hin as [Hin|Hin]; auto; right; apply elem_of_app; auto.
Qed.

Lemma isTokenRegistered_iff_witness :
  isTokenRegistered sample_imports (sample_registry ++ []) (VStr "tokA") = true
  ∧ isTokenRegistered sample_imports ([] ++ sample_registry) (VStr "tokA") = true.
Proof.
  apply (isTokenRegistered_iff sample_imports sample_registry [] (VStr "tokA")).
  reflexivity.
Defined.

(** X2. The uid of a static default token is registered whatever the
    registry yields, an empty registry included, as long as the uid is a
    primitive other than NaN (a string, in practice). *)
Theorem isTokenRegistered_default (I : Imports) (registered : list object)
    (token : object) :
  token ∈ INITIAL_TOKENS I →
  primitive (getfield token "uid") →
  isTokenRegistered I registered (getfield token "uid") = true
  ∧ isTokenRegistered I [] (getfield token "uid") = true.
Proof.
  intros Hin Hprim.
  assert (H : ∀ reg, isTokenRegistered I reg (getfield token "uid") = true).
  { intros reg. unfold isTokenRegistered.
    rewrite getRegisteredTokens_false_eq, existsb_elem_of.
    exists token. split; [apply elem_of_app; auto|].
    by apply strict_eq_primitive. }
  split; apply H.
Qed.

Lemma isTokenRegistered_default_witness :
  isTokenRegistered sample_imports sample_registry (VStr "00") = true
  ∧ isTokenRegistered sample_imports [] (VStr "00") = true.
Proof.
  apply (isTokenRegistered_default sample_imports sample_registry
           (TokenRecord (VStr "00", VStr "HTR", VStr "Hathor"))).
  - by left.
  - exact I.
Defined.

Lemma token_record_dom token :
  dom (token_record token) = ({[ "uid"; "symbol"; "name" ]} : gset string).
Proof. unfold token_record. rewrite !dom_insert_L, dom_empty_L. set_solver. Qed.

(** X3. Every record made from a token the registry yields has exactly the
    properties [uid], [symbol] and [name]: other properties of the stored
    token are never copied, and a property the token lacks is there with the
    value [undefined]. This holds of the whole list with [excludeHTR = true]
    and of what follows the static defaults with [excludeHTR = false]. *)
Theorem getRegisteredTokens_record_shape (I : Imports) (registered : list object) :
  Forall (λ record, dom record = ({[ "uid"; "symbol"; "name" ]} : gset string))
    (getRegisteredTokens I registered true)
  ∧ Forall (λ record, dom record = ({[ "uid"; "symbol"; "name" ]} : gset string))
      (drop (length (INITIAL_TOKENS I)) (getRegisteredTokens I registered false))
  ∧ (∀ token k, k ∈ ({[ "uid"; "symbol"; "name" ]} : gset string) →
       token_record token !! k = Some (getfield token k)).
Proof.
  split; [|split].
  - rewrite getRegisteredTokens_true_eq. apply Forall_fmap, Forall_forall.
    intros token _. apply token_record_dom.
  - rewrite getRegisteredTokens_false_eq, drop_app_length.
    apply Forall_fmap, Forall_forall. intros token _. apply token_record_dom.
  - intros token k Hk. unfold token_record.
    apply elem_of_union in Hk as [Hk|Hk%elem_of_singleton];
      [apply elem_of_union in Hk as [Hk%elem_of_singleton|Hk%elem_of_singleton]|];
      subst k.
    + by rewrite lookup_insert_eq.
    + rewrite lookup_insert_ne by done. by rewrite lookup_insert_eq.
    + rewrite !lookup_insert_ne by done. by rewrite lookup_insert_eq.
Qed.

(** X4. The two modes agree: the list with [excludeHTR = true] is the list
    with [excludeHTR = false] once the static defaults in front are dropped
    and the records with the native uid are filtered out. When the registry
    yields no native token, the full list is the defaults followed by the
    list without them. *)
Theorem getRegisteredTokens_modes (I : Imports) (registered : list object) :
  getRegisteredTokens I registered true
  = filter (λ record, is_native I record = false)
      (drop (length (INITIAL_TOKENS I)) (getRegisteredTokens I registered false))
  ∧ (Forall (λ token, is_native I token = false) registered →
     getRegisteredTokens I registered false
     = INITIAL_TOKENS I ++ getRegisteredTokens I registered true).
Proof.
  rewrite getRegisteredTokens_true_eq, getRegisteredTokens_false_eq, drop_app_length.
  split.
  - induction registered as [|token rest IH]; [done|].
    rewrite fmap_cons.
    assert (Hnat : is_native I (token_record token) = is_native I token).
    { unfold is_native. by rewrite token_record_uid. }
    destruct (is_native I token) eqn:E.
    + rewrite (filter_cons_False _ token) by (by rewrite E).
      rewrite (filter_cons_False _ (token_record token)) by (by rewrite Hnat).
      exact IH.
    + rewrite (filter_cons_True _ token) by done.
      rewrite (filter_cons_True _ (token_record token)) by done.
      rewrite fmap_cons. by rewrite IH.
  - intros Hall. f_equal. f_equal. symmetry.
    induction Hall as [|token rest Htoken _ IH]; [done|].
    rewrite filter_cons_True by done. by rewrite IH.
Qed.

Lemma getRegisteredTokens_modes_witness :
  let registered := [ TokenRecord (VStr "tokA", VStr "TKA", VStr "Token A") ] in
  getRegisteredTokens sample_imports registered false
  = INITIAL_TOKENS sample_imports ++ getRegisteredTokens sample_imports registered true.
Proof.
  intros registered.
  apply (getRegisteredTokens_modes sample_imports registered).
  by repeat constructor.
Defined.

(** ** [specificTypeAndPayload] and [isUnlockScreen] *)

Lemma strict_eq_sym a b : strict_eq a b = strict_eq b a.
Proof.
  destruct a, b; simpl; try done.
  - by destruct b, b0.
  - apply Z.eqb_sym.
  - apply String.eqb_sym.
  - apply Nat.eqb_sym.
Qed.

Lemma not_in_types_matches ts x action :
  getprop action "type" = x →
  negb (not_in_types ts x) = matches (PatTypes ts) action.
Proof.
  intros <-. unfold not_in_types, matches. rewrite negb_involutive.
  induction ts as [|t ts IH]; cbn [existsb]; [done|]. by rewrite IH, strict_eq_sym.
Qed.



(** X6. Where the predicate throws. On a [null] or [undefined] action it
    always throws, reading [action.type]. On any other action, a [null] or
    [undefined] field map makes it throw only when the kind is accepted:
    events of another kind are answered [false] before the field map is
    looked at. *)
Theorem specificTypeAndPayload_throws (L : PathSyntax) (_types : action_types)
    (payload action : value) :
  (nullish action = true → specificTypeAndPayload L _types payload action = None)
  ∧ (nullish action = false → nullish payload = true →
     specificTypeAndPayload L _types payload action
     = if matches (PatTypes (normalize_types _types)) action then None else Some false)
  ∧ (nullish action = false → nullish payload = false →
     specificTypeAndPayload L _types payload action ≠ None).
Proof.
  unfold specificTypeAndPayload.
  split; [|split].
  - by intros ->.
  - intros -> Hpayload.
    rewrite <- (not_in_types_matches _ (getprop action "type") action eq_refl).
    destruct (not_in_types _ _); simpl; [done|].
    by destruct payload.
  - intros -> Hpayload. destruct (not_in_types _ _); [done|].
    by destruct payload.
Qed.

Lemma specificTypeAndPayload_throws_witness :
  specificTypeAndPayload dot_paths (OneType "SEND_TX") VNull VUndefined = None
  ∧ specificTypeAndPayload dot_paths (OneType "SEND_TX") VNull (kind_event 1 "SEND_TX") = None
  ∧ specificTypeAndPayload dot_paths (OneType "SEND_TX") VNull (kind_event 1 "NEW_TX")
    = Some false.
Proof.
  split; [|split].
  - by apply (specificTypeAndPayload_throws dot_paths (OneType "SEND_TX") VNull VUndefined).
  - destruct (specificTypeAndPayload_throws dot_paths (OneType "SEND_TX") VNull
                (kind_event 1 "SEND_TX")) as (_ & H & _).
    rewrite H; reflexivity.
  - destruct (specificTypeAndPayload_throws dot_paths (OneType "SEND_TX") VNull
                (kind_event 1 "NEW_TX")) as (_ & H & _).
    rewrite H; reflexivity.
Defined.

(** X7. Asking for more fields can only turn a match into a mismatch: an
    event matched under a field map is matched under every part of it. *)
Theorem specificTypeAndPayload_antitone (L : PathSyntax) (_types : action_types)
    (pr pr' : ref) (F F' : object) (ar : ref) (A : object) :
  F ⊆ F' →
  specificTypeAndPayload L _types (VObj pr' F') (VObj ar A) = Some true →
  specificTypeAndPayload L _types (VObj pr F) (VObj ar A) = Some true.
Proof.
  intros Hsub [Hkind Hfields]%specificTypeAndPayload_true.
  apply specificTypeAndPayload_true. split; [done|].
  intros key expected Hkey. apply Hfields.
  by eapply lookup_weaken.
Qed.

Lemma specificTypeAndPayload_antitone_witness :
  specificTypeAndPayload dot_paths (OneType "SEND_TX_SUCCESS") (VObj 3 sample_fields)
    (VObj 1 sample_event) = Some true.
Proof.
  apply (specificTypeAndPayload_antitone dot_paths (OneType "SEND_TX_SUCCESS") 3 4
           sample_fields (<[ "type" := VStr "SEND_TX_SUCCESS" ]> sample_fields)
           1 sample_event).
  - apply insert_subseteq. reflexivity.
  - reflexivity.
Defined.

(** X8. The comparison is [!==]: an expected value that is NaN never
    matches, and an expected object matches only the very same object, never
    another one however alike. *)
Theorem specificTypeAndPayload_identity (L : PathSyntax) (_types : action_types)
    (pr : ref) (F : object) (ar : ref) (A : object) (key : string) (expected : value) :
  F !! key = Some expected →
  (expected = VNaN
   ∨ ∃ r o r' o', expected = VObj r o ∧ get L (VObj ar A) key = VObj r' o' ∧ r ≠ r') →
  specificTypeAndPayload L _types (VObj pr F) (VObj ar A) = Some false.
Proof.
  intros Hkey Hdiff.
  destruct (specificTypeAndPayload L _types (VObj pr F) (VObj ar A)) as [[]|] eqn:E;
    [|done|].
  - apply specificTypeAndPayload_true in E as [_ Hfields].
    specialize (Hfields key expected Hkey).
    destruct Hdiff as [->|(r & o & r' & o' & -> & Hget & Hne)].
    + by destruct (get L (VObj ar A) key).
    + rewrite Hget in Hfields. simpl in Hfields.
      apply Nat.eqb_eq in Hfields. by subst.
  - rewrite specificTypeAndPayload_unfold in E. done.
Qed.

Lemma specificTypeAndPayload_identity_witness :
  specificTypeAndPayload dot_paths (OneType "SEND_TX_SUCCESS")
    (VObj 3 (<[ "payload" := VObj 4 (<[ "uid" := VStr "00" ]> ∅) ]> ∅))
    (VObj 1 sample_event) = Some false.
Proof.
  apply (specificTypeAndPayload_identity dot_paths (OneType "SEND_TX_SUCCESS") 3
           (<[ "payload" := VObj 4 (<[ "uid" := VStr "00" ]> ∅) ]> ∅) 1 sample_event
           "payload" (VObj 4 (<[ "uid" := VStr "00" ]> ∅))).
  - reflexivity.
  - right. exists 4, (<[ "uid" := VStr "00" ]> ∅), 2, (<[ "uid" := VStr "00" ]> ∅).
    split; [reflexivity | split; [reflexivity | lia]].
Defined.

(** X9. A list of kinds is the union of its parts: an event is matched under
    the kinds [ts1 ++ ts2] exactly when it is matched under [ts1] or under
    [ts2]; the order of the kinds and their repetition do not matter. *)
Theorem specificTypeAndPayload_kinds_union (L : PathSyntax) (ts1 ts2 : list string)
    (pr : ref) (F : object) (ar : ref) (A : object) :
  specificTypeAndPayload L (ManyTypes (ts1 ++ ts2)) (VObj pr F) (VObj ar A) = Some true ↔
  specificTypeAndPayload L (ManyTypes ts1) (VObj pr F) (VObj ar A) = Some true
  ∨ specificTypeAndPayload L (ManyTypes ts2) (VObj pr F) (VObj ar A) = Some true.
Proof.
  rewrite !specificTypeAndPayload_true. unfold kind_accepted. simpl. split.
  - intros [(t & Ht & Hty) Hfields].
    apply elem_of_app in Ht as [Ht|Ht]; [left|right]; (split; [eauto|done]).
  - intros [[(t & Ht & Hty) Hfields]|[(t & Ht & Hty) Hfields]];
      (split; [exists t; split; [apply elem_of_app; auto|done]|done]).
Qed.

(** X10. [isUnlockScreen] answers [true] on an event exactly when its kind
    is [SET_LOCK_SCREEN] and its payload is the boolean [false]: a payload
    that is missing, [null], [0] or anything else does not unlock. It is the
    predicate [specificTypeAndPayload] builds for that kind and the field map
    [{ payload: false }], provided the path grammar reads [payload] as a
    plain property name. *)
Theorem isUnlockScreen_spec (L : PathSyntax) (SET_LOCK_SCREEN : string)
    (pr ar : ref) (A : object) :
  reIsPlainProp L "payload" = true →
  (isUnlockScreen SET_LOCK_SCREEN (VObj ar A) = Some true ↔
     A !! "type" = Some (VStr SET_LOCK_SCREEN) ∧ A !! "payload" = Some (VBool false))
  ∧ isUnlockScreen SET_LOCK_SCREEN (VObj ar A)
    = specificTypeAndPayload L (OneType SET_LOCK_SCREEN)
        (VObj pr (<[ "payload" := VBool false ]> ∅)) (VObj ar A).
Proof.
  intros Hplain. split.
  - unfold isUnlockScreen. simpl. split.
    + intros [= [Hty Hpay]%andb_true_iff].
      rewrite strict_eq_sym in Hty. apply strict_eq_str, getfield_str in Hty.
      split; [done|].
      apply (strict_eq_primitive _ (VBool false) I) in Hpay.
      unfold getfield in Hpay. by destruct (A !! "payload") as [v|]; simplify_eq/=.
    + intros [Hty Hpay]. unfold getfield. rewrite Hty, Hpay. simpl.
      by rewrite String.eqb_refl.
  - rewrite specificTypeAndPayload_unfold, insert_empty, map_to_list_singleton.
    unfold isUnlockScreen. simpl.
    rewrite (get_own_key L pr _ "payload" (VBool false)) by apply lookup_singleton_eq.
    unfold get, get_default, baseGet, castPath, isKey. rewrite Hplain. simpl.
    rewrite andb_true_r. unfold not_in_types. cbn [existsb].
    rewrite negb_involutive, orb_false_r, (strict_eq_sym (VStr SET_LOCK_SCREEN)).
    do 2 f_equal.
    by destruct (getfield A "payload").
Qed.

Lemma isUnlockScreen_spec_witness :
  isUnlockScreen "SET_LOCK_SCREEN"
    (VObj 1 (<[ "type" := VStr "SET_LOCK_SCREEN" ]> (<[ "payload" := VNum 0 ]> ∅)))
  = specificTypeAndPayload dot_paths (OneType "SET_LOCK_SCREEN")
      (VObj 2 (<[ "payload" := VBool false ]> ∅))
      (VObj 1 (<[ "type" := VStr "SET_LOCK_SCREEN" ]> (<[ "payload" := VNum 0 ]> ∅))).
Proof.
  apply (isUnlockScreen_spec dot_paths "SET_LOCK_SCREEN" 2 1
           (<[ "type" := VStr "SET_LOCK_SCREEN" ]> (<[ "payload" := VNum 0 ]> ∅))).
  reflexivity.
Defined.

(** ** [disableFeaturesIfNeeded] *)

(** X11. [disableFeaturesIfNeeded] never turns a toggle on and never removes
    one: an entry of the result that is truthy is the entry of the toggle
    set given, and every name of the toggle set is a name of the result.
    Settings whose [walletServiceUrl] is there and neither [null] nor
    [undefined], the empty string included, leave the toggle set as it
    is. *)
Theorem disableFeaturesIfNeeded_never_enables (I : Imports) (s t : object) :
  (∀ k v, disableFeaturesIfNeeded I s t !! k = Some v → truthy v = true →
          t !! k = Some v)
  ∧ dom t ⊆ dom (disableFeaturesIfNeeded I s t)
  ∧ (∀ url, s !! "walletServiceUrl" = Some url → nullish url = false →
            disableFeaturesIfNeeded I s t = t)
  ∧ (s !! "walletServiceUrl" = Some (VStr "") → disableFeaturesIfNeeded I s t = t).
Proof.
  assert (Hpresent : ∀ url, s !! "walletServiceUrl" = Some url → nullish url = false →
                            disableFeaturesIfNeeded I s t = t).
  { intros url Hurl Hnn. unfold disableFeaturesIfNeeded, isWalletServiceUnavailable,
      getfield. by rewrite Hurl; simpl; rewrite Hnn. }
  split; [|split; [|split]].
  - unfold disableFeaturesIfNeeded. destruct (isWalletServiceUnavailable s); [|done].
    intros k v Hk Hv. rewrite !lookup_insert in Hk.
    repeat case_decide; simplify_eq/=; done.
  - unfold disableFeaturesIfNeeded. destruct (isWalletServiceUnavailable s); [|done].
    rewrite !dom_insert. set_solver.
  - exact Hpresent.
  - intros Hurl. by apply (Hpresent (VStr "")).
Qed.

Lemma disableFeaturesIfNeeded_never_enables_witness :
  disableFeaturesIfNeeded sample_imports (<[ "walletServiceUrl" := VStr "" ]> ∅)
    sample_toggles = sample_toggles.
Proof.
  destruct (disableFeaturesIfNeeded_never_enables sample_imports
              (<[ "walletServiceUrl" := VStr "" ]> ∅) sample_toggles) as (_ & _ & _ & H).
  apply H. reflexivity.
Defined.

(** X12. Applying [disableFeaturesIfNeeded] for two settings objects gives
    the same toggle set in either order, and applying it for settings that
    lack the wallet service after any other settings is applying it for
    those alone. *)
Theorem disableFeaturesIfNeeded_commute (I : Imports) (s1 s2 t : object) :
  disableFeaturesIfNeeded I s1 (disableFeaturesIfNeeded I s2 t)
  = disableFeaturesIfNeeded I s2 (disableFeaturesIfNeeded I s1 t)
  ∧ (isWalletServiceUnavailable s1 = true →
     disableFeaturesIfNeeded I s1 (disableFeaturesIfNeeded I s2 t)
     = disableFeaturesIfNeeded I s1 t).
Proof.
  unfold disableFeaturesIfNeeded. split.
  - by destruct (isWalletServiceUnavailable s1), (isWalletServiceUnavailable s2).
  - intros ->. destruct (isWalletServiceUnavailable s2); [|done].
    apply map_eq. intros k. rewrite !lookup_insert. repeat case_decide; done.
Qed.

Lemma disableFeaturesIfNeeded_commute_witness :
  disableFeaturesIfNeeded sample_imports ∅
    (disableFeaturesIfNeeded sample_imports (<[ "walletServiceUrl" := VNull ]> ∅)
       sample_toggles)
  = disableFeaturesIfNeeded sample_imports ∅ sample_toggles.
Proof.
  destruct (disableFeaturesIfNeeded_commute sample_imports ∅
              (<[ "walletServiceUrl" := VNull ]> ∅) sample_toggles) as [_ H].
  apply H. reflexivity.
Defined.

(** ** [checkForFeatureFlag] and [waitForFeatureToggleInitialization] *)

(** X13. When the store is ready but holds no toggle set ([featureToggles]
    is absent, [null] or [undefined]), [checkForFeatureFlag] returns the
    static default of the flag if that is truthy and [false] otherwise,
    whatever the flag name and the path grammar. *)
Theorem checkForFeatureFlag_no_toggle_set (L : PathSyntax) (I : Imports)
    (flag : string) (s : object) :
  truthy (getfield s "featureTogglesInitialized") = true →
  nullish (getfield s "featureToggles") = true →
  let t0 := start I (checkForFeatureFlag L I flag) s in
  standing t0 = Done (js_or (getfield (FEATURE_TOGGLE_DEFAULTS I) flag) (VBool false))
  ∧ (truthy (getfield (FEATURE_TOGGLE_DEFAULTS I) flag) = false →
     standing t0 = Done (VBool false))
  ∧ resumed t0 = 0.
Proof.
  intros Hready Hnone t0. subst t0.
  unfold start, checkForFeatureFlag, waitForFeatureToggleInitialization. simpl.
  rewrite Hready. simpl. unfold get_default. rewrite Hnone. simpl.
  split; [done | split; [|done]].
  intros Hfalsy. unfold js_or. by rewrite Hfalsy.
Qed.

Lemma checkForFeatureFlag_no_toggle_set_witness :
  let s : object := <[ "featureTogglesInitialized" := VBool true ]> ∅ in
  standing (start sample_imports
              (checkForFeatureFlag dot_paths sample_imports "nano-contract.rollout") s)
  = Done (VBool true)
  ∧ standing (start sample_imports
                (checkForFeatureFlag dot_paths sample_imports
                   "wallet-service-mobile.rollout") s)
    = Done (VBool false).
Proof.
  intros s. split.
  - by destruct (checkForFeatureFlag_no_toggle_set dot_paths sample_imports
                   "nano-contract.rollout" s eq_refl eq_refl) as (H & _).
  - destruct (checkForFeatureFlag_no_toggle_set dot_paths sample_imports
                "wallet-service-mobile.rollout" s eq_refl eq_refl) as (_ & H & _).
    by apply H.
Defined.

Lemma deliver_read_only (I : Imports) (s : object) (events : list value)
    (t : task value) (a : value) :
  read_only I s events t → read_only I s (events ++ [a]) (deliver I t a).
Proof.
  destruct t as [st out log n standing]. unfold read_only, deliver. simpl.
  intros (-> & -> & -> & Hst).
  assert (Hred : reducer I (reduce I s events) a = reduce I s (events ++ [a])).
  { unfold reduce. by rewrite foldl_app. }
  destruct standing as [r|e|p k|effects k]; simpl; [by rewrite Hred|done| |done].
  destruct Hst as [-> Hk]. destruct (matches p a); simpl.
  - destruct (Hk a (reducer I (reduce I s events) a) 1) as [r ->]. simpl.
    by rewrite Hred.
  - by rewrite Hred.
Qed.

(** X14. [checkForFeatureFlag] only reads: on every store and over every
    sequence of events it emits no action, logs nothing, never fails, is
    resumed at most once, and leaves the store to the reducer. *)
Theorem checkForFeatureFlag_read_only (L : PathSyntax) (I : Imports) (flag : string)
    (s : object) (events : list value) :
  let t := run I (start I (checkForFeatureFlag L I flag) s) events in
  emitted t = [] ∧ console t = [] ∧ resumed t ≤ 1
  ∧ store t = reduce I s events ∧ ∀ e, standing t ≠ Failed e.
Proof.
  intros t.
  assert (H : read_only I s events t).
  { subst t. induction events as [|a events IH] using rev_ind.
    - unfold read_only, start, checkForFeatureFlag, waitForFeatureToggleInitialization.
      simpl. destruct (truthy _); simpl; repeat split; try lia.
      intros a s' n. by eexists.
    - unfold run. rewrite foldl_app. simpl. by apply deliver_read_only. }
  clearbody t. destruct H as (Hout & Hlog & Hstore & Hst).
  repeat split; try done.
  - destruct (standing t); try done. lia.
  - intros e He. by rewrite He in Hst.
Qed.

(** ** [dispatchAndWait] *)

Lemma winner_outcome successAction failureAction a :
  match winner [("success", successAction); ("falure", failureAction)] a with
  | Some (key, _) => outcome_of successAction failureAction a {[ key := a ]}
  | None => unsettling successAction failureAction a
  end.
Proof.
  unfold winner, outcome_of, unsettling. simpl.
  destruct (matches successAction a); simpl; [by left|].
  destruct (matches failureAction a); simpl; [by right|done].
Qed.

Lemma deliver_racing (I : Imports) action successAction failureAction events
    (t : task object) (a : value) :
  racing action successAction failureAction events t →
  racing action successAction failureAction (events ++ [a]) (deliver I t a).
Proof.
  destruct t as [st out log n standing]. unfold racing, deliver. simpl.
  intros (-> & -> & Hst).
  destruct standing as [outcome|e|p k|effects k]; simpl; [|done|done|].
  - destruct Hst as [-> (b & Hb & Hout)]. repeat split; try done.
    exists b. split; [|done]. apply elem_of_app. auto.
  - destruct Hst as (-> & -> & -> & Hskip).
    pose proof (winner_outcome successAction failureAction a) as Hw.
    destruct (winner _ a) as [[key p]|]; simpl.
    + repeat split; try done. exists a. split; [|done].
      apply elem_of_app. right. by left.
    + repeat split; try done. apply Forall_app. split; [done|]. by constructor.
Qed.

(** X15. Over every sequence of events [dispatchAndWait] has emitted the
    command and nothing else, logs nothing and never fails. When it returns,
    it was resumed once and the object returned has a single key, [success]
    or [falure], holding one of the events delivered, which the pattern of
    that side matches; the key [failure] is never there, so reading
    [result.failure] gives [undefined] on every outcome. *)
Theorem dispatchAndWait_outcome (I : Imports) (action : value)
    (successAction failureAction : pattern) (s : object) (events : list value) :
  let t := run I (start I (dispatchAndWait action successAction failureAction) s) events in
  emitted t = [action] ∧ console t = []
  ∧ (∀ e, standing t ≠ Failed e)
  ∧ (∀ outcome, standing t = Done outcome →
       resumed t = 1
       ∧ (∃ a, a ∈ events ∧ outcome_of successAction failureAction a outcome)
       ∧ size outcome = 1
       ∧ getfield outcome "failure" = VUndefined).
Proof.
  intros t.
  assert (H : racing action successAction failureAction events t).
  { subst t. induction events as [|a events IH] using rev_ind.
    - unfold racing, start, dispatchAndWait. simpl. repeat split; done.
    - unfold run. rewrite foldl_app. simpl. by apply deliver_racing. }
  clearbody t. destruct H as (Hout & Hlog & Hst).
  split; [done | split; [done | split]].
  - intros e He. by rewrite He in Hst.
  - intros outcome Hdone. rewrite Hdone in Hst. destruct Hst as [Hres (a & Ha & Hof)].
    split; [done | split; [eauto|]].
    destruct Hof as [[_ ->]|(_ & _ & ->)];
      (split; [apply map_size_singleton | unfold getfield; by rewrite lookup_singleton_ne]).
Qed.

Lemma dispatchAndWait_outcome_witness :
  let t := run sample_imports
             (start sample_imports
                (dispatchAndWait (kind_event 1 "SEND_TX")
                   (PatType "SEND_TX_SUCCESS") (PatType "SEND_TX_FAILED")) ∅)
             [kind_event 3 "SEND_TX_FAILED"] in
  ∃ outcome, standing t = Done outcome ∧ getfield outcome "failure" = VUndefined.
Proof.
  intros t. exists {[ "falure" := kind_event 3 "SEND_TX_FAILED" ]}.
  split; [reflexivity|].
  destruct (dispatchAndWait_outcome sample_imports (kind_event 1 "SEND_TX")
              (PatType "SEND_TX_SUCCESS") (PatType "SEND_TX_FAILED") ∅
              [kind_event 3 "SEND_TX_FAILED"]) as (_ & _ & _ & H).
  by destruct (H {[ "falure" := kind_event 3 "SEND_TX_FAILED" ]} eq_refl)
    as (_ & _ & _ & Hfailure).
Defined.

(** ** [errorHandler] *)

Lemma supervises_never_failed failureAction action (t' t : task value) :
  supervises failureAction action t' t → ∀ e, standing t' ≠ Failed e.
Proof.
  unfold supervises. intros H e He.
  destruct (standing t) as [r|e'|p k|effects k].
  - destruct H as [H _]. congruence.
  - destruct H as [H _]. congruence.
  - subst t'. done.
  - subst t'. done.
Qed.

(** X16. Wrapping a wrapper adds nothing: on an action that is not nullish,
    the wrapper of the wrapper of a routine emits and logs just what the
    inner wrapper does, stands suspended on the same listeners when that one
    does, returns when that one returns and never fails, so the outer
    compensating event is never emitted on its account. *)
Theorem errorHandler_nested (I : Imports) (saga : value → Saga value)
    (inner outer action : value) (s : object) (events : list value) :
  nullish action = false →
  let once := run I (start I (errorHandler saga inner action) s) events in
  let twice :=
    run I (start I (errorHandler (errorHandler saga inner) outer action) s) events in
  emitted twice = emitted once ∧ console twice = console once
  ∧ store twice = store once ∧ resumed twice = resumed once
  ∧ suspended twice = suspended once ∧ listeners twice = listeners once
  ∧ (∀ r, standing once = Done r → standing twice = Done VUndefined)
  ∧ (∀ e, standing twice ≠ Failed e).
Proof.
  intros Hobj once twice.
  assert (Hin : supervises inner action once (run I (start I (saga action) s) events)).
  { subst once. apply run_supervises. unfold start.
    rewrite errorHandler_supervise by done. apply advance_supervise. }
  assert (Hout : supervises outer action twice once).
  { subst once twice. apply run_supervises. unfold start.
    rewrite (errorHandler_supervise outer action (errorHandler saga inner)) by done.
    apply advance_supervise. }
  pose proof (supervises_never_failed _ _ _ _ Hin) as Hnf.
  pose proof (supervises_never_failed _ _ _ _ Hout) as Hnf'.
  clearbody once twice. clear Hin. unfold supervises in Hout.
  unfold suspended, listeners.
  destruct (standing once) as [r|e|p k|effects k] eqn:E.
  - destruct Hout as (-> & -> & -> & -> & ->). by repeat split.
  - by destruct (Hnf e).
  - subst twice. simpl. repeat split; try done.
  - subst twice. simpl. repeat split; try done.
Qed.

Lemma errorHandler_nested_witness :
  let inner := kind_event 9 "SEND_TX_FAILED" in
  let outer := kind_event 8 "WALLET_FAILED" in
  emitted (run sample_imports
             (start sample_imports
                (errorHandler (errorHandler (λ _, Throw (VStr "boom")) inner) outer
                   (kind_event 1 "SEND_TX")) ∅) [])
  = [inner].
Proof.
  intros inner outer.
  destruct (errorHandler_nested sample_imports (λ _, Throw (VStr "boom")) inner outer
              (kind_event 1 "SEND_TX") ∅ [] eq_refl) as (H & _).
  rewrite H. reflexivity.
Defined.

Lemma errorHandler_rethrow (saga : value → Saga value) (failureAction action : value) :
  nullish action = true →
  errorHandler saga failureAction action = rethrow (saga action).
Proof. intros Hnull. unfold errorHandler, rethrow. by rewrite Hnull. Qed.

Lemma advance_rethrow (I : Imports) m s out log n :
  escapes (advance I (rethrow m) s out log n) (advance I m s out log n).
Proof.
  revert s out log n.
  induction m as [r|e|sel k IH|a k IH|p k IH|effects k IH|args k IH];
    intros s out log n; simpl; first [apply IH | done].
Qed.

Lemma deliver_escapes (I : Imports) (t' t : task value) (a : value) :
  escapes t' t → escapes (deliver I t' a) (deliver I t a).
Proof.
  unfold escapes. destruct t as [s out log n st]. simpl.
  destruct st as [r|e|p k|effects k]; simpl; intros ->; unfold deliver; simpl.
  - done.
  - done.
  - destruct (matches p a); [|done]. apply advance_rethrow.
  - destruct (winner effects a) as [[key ?]|]; [|done]. apply advance_rethrow.
Qed.

Lemma run_escapes (I : Imports) (t' t : task value) (events : list value) :
  escapes t' t → escapes (run I t' events) (run I t events).
Proof.
  revert t' t. induction events as [|a events IH]; intros t' t H; [done|].
  rewrite !run_cons. by apply IH, deliver_escapes.
Qed.

(** X17. On a [null] or [undefined] action the wrapper of [errorHandler]
    does not compensate: when the routine fails, the log line of the [catch]
    block throws while reading [action.type], so the wrapper fails with that
    [TypeError] in place of the routine's fault, and it has emitted and
    logged only what the routine had; the compensating event is not
    emitted. When the routine returns, the wrapper returns. *)
Theorem errorHandler_nullish_escapes (I : Imports) (saga : value → Saga value)
    (failureAction action : value) (s : object) (events : list value) :
  nullish action = true →
  let wrapped := run I (start I (errorHandler saga failureAction action) s) events in
  let bare := run I (start I (saga action) s) events in
  emitted wrapped = emitted bare ∧ console wrapped = console bare
  ∧ (∀ e, standing bare = Failed e → standing wrapped = Failed TypeError)
  ∧ (∀ r, standing bare = Done r → standing wrapped = Done VUndefined)
  ∧ suspended wrapped = suspended bare.
Proof.
  intros Hnull wrapped bare.
  assert (H : escapes wrapped bare).
  { subst wrapped bare. apply run_escapes. unfold start.
    rewrite errorHandler_rethrow by done. apply advance_rethrow. }
  clearbody wrapped bare. unfold escapes in H. unfold suspended.
  destruct (standing bare) as [r|e|p k|effects k]; subst wrapped; simpl;
    by repeat split.
Qed.

Lemma errorHandler_nullish_escapes_witness :
  let wrapped :=
    run sample_imports
      (start sample_imports
         (errorHandler (λ _, Put (kind_event 2 "STEP") (Throw (VStr "boom")))
            (kind_event 9 "SEND_TX_FAILED") VNull) ∅) [] in
  standing wrapped = Failed TypeError ∧ emitted wrapped = [kind_event 2 "STEP"].
Proof.
  intros wrapped.
  destruct (errorHandler_nullish_escapes sample_imports
              (λ _, Put (kind_event 2 "STEP") (Throw (VStr "boom")))
              (kind_event 9 "SEND_TX_FAILED") VNull ∅ [] eq_refl) as (Hem & _ & Hf & _).
  split; [by apply (Hf (VStr "boom")) | exact Hem].
Defined.

(** ** [showPinScreenForResult] *)

Lemma modal_visible_completions (flag : bool) (pins : list value) :
  foldl (λ flag o, match o with Dispatch (setIsShowingPinScreen b) => b | _ => flag end)
    flag (pins ≫= λ _pin, [Dispatch (setIsShowingPinScreen false); Resolve _pin])
  = match pins with [] => flag | _ => false end.
Proof.
  revert flag. induction pins as [|pin pins IH]; intros flag; [done|].
  change (foldl (λ flag o, match o with
                           | Dispatch (setIsShowingPinScreen b) => b
                           | _ => flag
                           end) false
            (pins ≫= λ _pin, [Dispatch (setIsShowingPinScreen false); Resolve _pin])
          = false).
  rewrite IH. by destruct pins.
Qed.

(** X18. However the screen completes. If it never calls back, the promise
    stays pending and the flag stays [true]. If it calls back, once or more,
    the promise holds the first secret entered, later ones are ignored, and
    the flag is [false] at the end whatever it was at the start. *)
Theorem showPinScreenForResult_completions (I : Imports) (initial : bool)
    (pins : list value) :
  let trace := session (showPinScreenForResult I redux_dispatch) pins in
  promise_value trace = head pins
  ∧ modal_visible initial trace = match pins with [] => true | _ => false end
  ∧ occurrences (sets_flag true) trace = 1
  ∧ occurrences is_resolve trace = length pins.
Proof.
  intros trace. subst trace. rewrite session_unfold.
  split; [|split; [|split]].
  - unfold promise_value. by destruct pins.
  - unfold modal_visible. cbn [foldl]. apply modal_visible_completions.
  - unfold occurrences.
    rewrite filter_cons_False by (simpl; discriminate).
    rewrite filter_cons_True by reflexivity. simpl. f_equal.
    induction pins as [|p pins IH]; [done|].
    change (length (filter (λ o, sets_flag true o = true)
                      (Dispatch (setIsShowingPinScreen false) :: Resolve p
                       :: (pins ≫= λ _pin, [Dispatch (setIsShowingPinScreen false);
                                            Resolve _pin]))) = 0).
    by rewrite !filter_cons_False by (simpl; discriminate).
  - unfold occurrences. rewrite !filter_cons_False by (simpl; discriminate).
    induction pins as [|p pins IH]; [done|].
    change (length (filter (λ o, is_resolve o = true)
                      (Dispatch (setIsShowingPinScreen false) :: Resolve p
                       :: (pins ≫= λ _pin, [Dispatch (setIsShowingPinScreen false);
                                            Resolve _pin]))) = S (length pins)).
    rewrite filter_cons_False by (simpl; discriminate).
    rewrite filter_cons_True by reflexivity. simpl. by rewrite IH.
Qed.

(** ** The network probes *)

(** X19. [getFullnodeNetwork] stays pending exactly when the version request
    neither calls back nor fails. It is fulfilled exactly when the first
    thing the request does is call back with a response that is not nullish,
    and then with [response.network], which is [undefined] when the response
    has no such property. In every other case, a failed request and a
    nullish response alike, it is rejected with the one fixed error: the
    cause never reaches the caller. What the request does after it settled
    is ignored. *)
Theorem getFullnodeNetwork_spec (getVersion : list api_step) :
  (getFullnodeNetwork getVersion = Pending ↔ getVersion = [])
  ∧ (∀ network, getFullnodeNetwork getVersion = Fulfilled network ↔
       ∃ response rest, getVersion = CallsBack response :: rest
                        ∧ nullish response = false
                        ∧ network = getprop response "network")
  ∧ (∀ e, getFullnodeNetwork getVersion = Rejected e →
       e = new_Error "Error getting fullnode version data.")
  ∧ (∀ step rest, getFullnodeNetwork (step :: rest) = getFullnodeNetwork [step]).
Proof.
  unfold getFullnodeNetwork, read.
  split; [|split; [|split]].
  - destruct getVersion as [|[response|error] rest]; simpl; [done| |done].
    by destruct (nullish response).
  - intros network. destruct getVersion as [|[response|error] rest]; simpl.
    + split; [done | by intros (? & ? & ? & _)].
    + destruct (nullish response) eqn:E; simpl.
      * split; [done|]. intros (? & ? & [= <- <-] & ? & _). congruence.
      * split; [intros [= <-]; eauto|]. by intros (? & ? & [= <- <-] & _ & ->).
    + split; [done | by intros (? & ? & ? & _)].
  - intros e. destruct getVersion as [|[response|error] rest]; simpl; [done| |].
    + by destruct (nullish response); simpl; intros [= <-].
    + by intros [= <-].
  - by intros [response|error] rest.
Qed.



(** ** How the helpers compose *)

Lemma get_default_own (L : PathSyntax) r (toggles : object) flag v d :
  toggles !! flag = Some v → nullish v = false →
  get_default L (VObj r toggles) flag d = v.
Proof.
  intros Hv Hnn. unfold get_default, baseGet, castPath, isKey. simpl.
  rewrite Hv. rewrite bool_decide_eq_true_2 by eauto.
  rewrite orb_true_r. simpl. unfold getfield. rewrite Hv. simpl.
  by destruct v.
Qed.

(** X21. Cascading reaches the flag check. When the store is ready and its
    toggle set is the one [disableFeaturesIfNeeded] made for settings that
    lack the wallet service, [checkForFeatureFlag] answers [false] for the
    wallet service flag and for the push notification flag, whatever the
    toggle set was before, whatever the static defaults and whatever the
    path grammar. *)
Theorem checkForFeatureFlag_after_disable (L : PathSyntax) (I : Imports)
    (settings toggles s : object) (r : ref) :
  isWalletServiceUnavailable settings = true →
  truthy (getfield s "featureTogglesInitialized") = true →
  getfield s "featureToggles" = VObj r (disableFeaturesIfNeeded I settings toggles) →
  standing (start I (checkForFeatureFlag L I (WALLET_SERVICE_FEATURE_TOGGLE I)) s)
  = Done (VBool false)
  ∧ standing (start I (checkForFeatureFlag L I (PUSH_NOTIFICATION_FEATURE_TOGGLE I)) s)
    = Done (VBool false).
Proof.
  intros Hun Hready Hstore.
  assert (H : ∀ flag, disableFeaturesIfNeeded I settings toggles !! flag
                      = Some (VBool false) →
              standing (start I (checkForFeatureFlag L I flag) s) = Done (VBool false)).
  { intros flag Hflag.
    unfold start, checkForFeatureFlag, waitForFeatureToggleInitialization. simpl.
    rewrite Hready. simpl. rewrite Hstore.
    by rewrite (get_default_own L r _ flag (VBool false)). }
  unfold disableFeaturesIfNeeded in H. rewrite Hun in H.
  split; apply H.
  - rewrite !lookup_insert. by repeat case_decide.
  - by rewrite lookup_insert_eq.
Qed.

Lemma checkForFeatureFlag_after_disable_witness :
  let toggles := disableFeaturesIfNeeded sample_imports ∅ sample_toggles in
  let s : object :=
    <[ "featureTogglesInitialized" := VBool true ]>
      (<[ "featureToggles" := VObj 3 toggles ]> ∅) in
  standing (start sample_imports
              (checkForFeatureFlag dot_paths sample_imports
                 "wallet-service-mobile.rollout") s)
  = Done (VBool false).
Proof.
  intros toggles s.
  destruct (checkForFeatureFlag_after_disable dot_paths sample_imports ∅
              sample_toggles s 3) as [H _]; [reflexivity | reflexivity | reflexivity |].
  exact H.
Defined.

(** X22. Two predicates of [specificTypeAndPayload] whose kinds have nothing
    in common never match the same event, whatever their field maps: raced
    against each other, as in [dispatchAndWait], at most one branch can
    resolve on any event. *)
Theorem specificTypeAndPayload_exclusive (L : PathSyntax) (K1 K2 : action_types)
    (pr1 pr2 : ref) (F1 F2 : object) (ar : ref) (A : object) :
  (∀ t, t ∈ normalize_types K1 → t ∉ normalize_types K2) →
  ¬ (specificTypeAndPayload L K1 (VObj pr1 F1) (VObj ar A) = Some true
     ∧ specificTypeAndPayload L K2 (VObj pr2 F2) (VObj ar A) = Some true).
Proof.
  intros Hdisjoint [H1 H2].
  apply specificTypeAndPayload_true in H1 as [(t1 & Ht1 & Hty1) _].
  apply specificTypeAndPayload_true in H2 as [(t2 & Ht2 & Hty2) _].
  rewrite Hty1 in Hty2. injection Hty2 as ->. by apply (Hdisjoint t2).
Qed.

Lemma specificTypeAndPayload_exclusive_witness :
  ¬ (specificTypeAndPayload dot_paths (OneType "SEND_TX_SUCCESS") (VObj 3 ∅)
       (VObj 1 sample_event) = Some true
     ∧ specificTypeAndPayload dot_paths (OneType "SEND_TX_FAILED") (VObj 4 ∅)
         (VObj 1 sample_event) = Some true).
Proof.
  apply (specificTypeAndPayload_exclusive dot_paths (OneType "SEND_TX_SUCCESS")
           (OneType "SEND_TX_FAILED") 3 4 ∅ ∅ 1 sample_event).
  intros t Ht%list_elem_of_singleton Ht'%list_elem_of_singleton. by subst.
Defined.

(** ** The unregister screen *)


